(** * endless: zero-downtime restarts for Go HTTP servers

    A shallow embedding of the package [endless] and the properties of its
    listener hand-off, fork coordination, shutdown and signal-hook code.

    The embedding follows the current revision of the package (the file
    with the lifecycle states, the hammer and [ENDLESS_SOCKET_ORDER]).
    The earlier revision kept next to it ([endless.go], with the
    [-continue] flag) is embedded in [Module Legacy] where its behaviour
    differs. *)

From Stdlib Require Import Ascii.
From stdpp Require Import gmap strings list fin_maps.

Local Open Scope Z_scope.

(* ===================================================================== *)
(** * Go runtime values used by the package                                *)
(* ===================================================================== *)

(** [uint] and [uintptr] are 64-bit words; arithmetic wraps.  A slice
    index or length is a non-negative [int], so converting it to [uint]
    keeps its value. *)
Definition uint_modulus : Z := 2 ^ 64.
Definition uint_wrap (z : Z) : Z := z `mod` uint_modulus.

(** [strings.Split(s, sep)] for a one-byte separator (the package only
    splits on [","]): the pieces between the separators, one more piece
    than there are separators. *)
Fixpoint Split (s : string) (sep : ascii) : list string :=
  match s with
  | EmptyString => [EmptyString]
  | String c rest =>
      if decide (c = sep) then EmptyString :: Split rest sep
      else match Split rest sep with
           | piece :: pieces => String c piece :: pieces
           | [] => [String c EmptyString]
           end
  end.

(** [strings.Join(elems, sep)] for a one-byte separator. *)
Fixpoint Join (elems : list string) (sep : ascii) : string :=
  match elems with
  | [] => EmptyString
  | [e] => e
  | e :: rest => e +:+ String sep (Join rest sep)
  end.

(** [len(s)] of a Go string, in bytes. *)
Definition len (s : string) : Z := Z.of_nat (String.length s).

(** The byte [sep] occurs in [s]. *)
Fixpoint contains_byte (sep : ascii) (s : string) : bool :=
  match s with
  | EmptyString => false
  | String c rest => bool_decide (c = sep) || contains_byte sep rest
  end.

Definition comma : ascii := ","%char.

(** Lookup in a Go map: a missing key reads as the zero value. *)
Definition map_index (m : gmap string Z) (k : string) : Z :=
  default 0 (m !! k).

(* ===================================================================== *)
(** * Constants                                                            *)
(* ===================================================================== *)

(** The [iota] block: two hook phases, then the four lifecycle states. *)
Definition PRE_SIGNAL : Z := 0.
Definition POST_SIGNAL : Z := 1.

Inductive State := STATE_INIT | STATE_RUNNING | STATE_SHUTTING_DOWN | STATE_TERMINATE.


#[global] Instance State_eq_dec : EqDecision State.
Proof. solve_decision. Defined.

(** [os.Signal] values are [syscall.Signal] numbers (Linux numbering). *)
Abbreviation Signal := Z (only parsing).
Definition SIGHUP : Signal := 1.
Definition SIGINT : Signal := 2.
Definition SIGUSR1 : Signal := 10.
Definition SIGUSR2 : Signal := 12.
Definition SIGTERM : Signal := 15.
Definition SIGTSTP : Signal := 20.

(** Set once in [init]. *)
Definition hookableSignals : list Signal :=
  [SIGHUP; SIGUSR1; SIGUSR2; SIGINT; SIGTERM; SIGTSTP].

(* ===================================================================== *)
(** * Data model                                                           *)
(* ===================================================================== *)

(** An [*os.File] or a socket is identified by a number. *)
Abbreviation File := Z (only parsing).

(** A user callback ([func()]) is identified by a number; running it is
    recorded in the event trace. *)
Abbreviation Hook := nat (only parsing).

(** [endlessListener]: the wrapped TCP listener (identified by its socket)
    and the [stopped] flag. *)
Record endlessListener := {
  el_socket : File;
  stopped : bool
}.

(** The dynamic type held by the interface field [EndlessListener]:
    nothing, an [*endlessListener], or the TLS listener built around
    [srv.tlsInnerListener]. *)
Inductive netListener :=
| ListenerNil
| ListenerEndless (el : endlessListener)
| ListenerTLS.

(** [endlessServer].  The counter of the [sync.WaitGroup] is [wg]; the
    keep-alive switch of the embedded [http.Server] is [keepAlives]. *)
Record endlessServer := {
  Addr : string;
  ReadTimeout : Z;
  WriteTimeout : Z;
  MaxHeaderBytes : Z;
  keepAlives : bool;
  EndlessListener : netListener;
  SignalHooks : gmap Z (gmap Z (list Hook));
  tlsInnerListener : option endlessListener;
  wg : Z;
  isChild : bool;
  state : State
}.

Definition set_state (st : State) (srv : endlessServer) : endlessServer :=
  {| Addr := Addr srv; ReadTimeout := ReadTimeout srv;
     WriteTimeout := WriteTimeout srv; MaxHeaderBytes := MaxHeaderBytes srv;
     keepAlives := keepAlives srv; EndlessListener := EndlessListener srv;
     SignalHooks := SignalHooks srv; tlsInnerListener := tlsInnerListener srv;
     wg := wg srv; isChild := isChild srv; state := st |}.

Definition set_wg (c : Z) (srv : endlessServer) : endlessServer :=
  {| Addr := Addr srv; ReadTimeout := ReadTimeout srv;
     WriteTimeout := WriteTimeout srv; MaxHeaderBytes := MaxHeaderBytes srv;
     keepAlives := keepAlives srv; EndlessListener := EndlessListener srv;
     SignalHooks := SignalHooks srv; tlsInnerListener := tlsInnerListener srv;
     wg := c; isChild := isChild srv; state := state srv |}.

Definition set_keepAlives (b : bool) (srv : endlessServer) : endlessServer :=
  {| Addr := Addr srv; ReadTimeout := ReadTimeout srv;
     WriteTimeout := WriteTimeout srv; MaxHeaderBytes := MaxHeaderBytes srv;
     keepAlives := b; EndlessListener := EndlessListener srv;
     SignalHooks := SignalHooks srv; tlsInnerListener := tlsInnerListener srv;
     wg := wg srv; isChild := isChild srv; state := state srv |}.

Definition set_EndlessListener (l : netListener) (srv : endlessServer) : endlessServer :=
  {| Addr := Addr srv; ReadTimeout := ReadTimeout srv;
     WriteTimeout := WriteTimeout srv; MaxHeaderBytes := MaxHeaderBytes srv;
     keepAlives := keepAlives srv; EndlessListener := l;
     SignalHooks := SignalHooks srv; tlsInnerListener := tlsInnerListener srv;
     wg := wg srv; isChild := isChild srv; state := state srv |}.

Definition set_tlsInnerListener (l : option endlessListener) (srv : endlessServer)
  : endlessServer :=
  {| Addr := Addr srv; ReadTimeout := ReadTimeout srv;
     WriteTimeout := WriteTimeout srv; MaxHeaderBytes := MaxHeaderBytes srv;
     keepAlives := keepAlives srv; EndlessListener := EndlessListener srv;
     SignalHooks := SignalHooks srv; tlsInnerListener := l;
     wg := wg srv; isChild := isChild srv; state := state srv |}.

Definition set_SignalHooks (h : gmap Z (gmap Z (list Hook))) (srv : endlessServer)
  : endlessServer :=
  {| Addr := Addr srv; ReadTimeout := ReadTimeout srv;
     WriteTimeout := WriteTimeout srv; MaxHeaderBytes := MaxHeaderBytes srv;
     keepAlives := keepAlives srv; EndlessListener := EndlessListener srv;
     SignalHooks := h; tlsInnerListener := tlsInnerListener srv;
     wg := wg srv; isChild := isChild srv; state := state srv |}.

(** [exec.Cmd] as [fork] fills it in. *)
Record Cmd := {
  cmd_Path : string;
  cmd_Args : list string;
  cmd_ExtraFiles : list (option File);
  cmd_Env : list string
}.

(** What [getListener] asks of the operating system. *)
Inductive acquire :=
| FromFile (fd : Z)          (* net.FileListener(os.NewFile(fd, "")) *)
| Listen (laddr : string).   (* net.Listen("tcp", laddr) *)

(** The operating system as the process sees it: environment, argument
    vector ([os.Args[0]] and [os.Args[1:]]), parent pid, and the answers
    of the system calls the package makes ([inr]/[Some] carry the error
    text). *)
Record OS := {
  Getenv : string -> string;
  Environ : list string;
  Args0 : string;
  Args1 : list string;
  Getppid : Z;
  os_open : acquire -> File + string;
  os_close : File -> option string;
  os_dup : File -> option File;
  os_start : Cmd -> option string
}.

(** A server object lives on the heap; the registry and the goroutines
    share it through its pointer. *)
Abbreviation ptr := nat (only parsing).

(** The package-level variables, and the heap of server objects. *)
Record process := {
  runningServers : gmap string ptr;
  runningServersOrder : list string;
  socketPtrOffsetMap : gmap string Z;
  runningServersForked : bool;
  DefaultReadTimeOut : Z;
  DefaultWriteTimeOut : Z;
  DefaultMaxHeaderBytes : Z;
  DefaultHammerTime : Z;
  g_isChild : bool;
  socketOrder : string;
  heap : list endlessServer
}.

Definition set_heap (h : list endlessServer) (g : process) : process :=
  {| runningServers := runningServers g;
     runningServersOrder := runningServersOrder g;
     socketPtrOffsetMap := socketPtrOffsetMap g;
     runningServersForked := runningServersForked g;
     DefaultReadTimeOut := DefaultReadTimeOut g;
     DefaultWriteTimeOut := DefaultWriteTimeOut g;
     DefaultMaxHeaderBytes := DefaultMaxHeaderBytes g;
     DefaultHammerTime := DefaultHammerTime g;
     g_isChild := g_isChild g;
     socketOrder := socketOrder g;
     heap := h |}.

Definition set_forked (b : bool) (g : process) : process :=
  {| runningServers := runningServers g;
     runningServersOrder := runningServersOrder g;
     socketPtrOffsetMap := socketPtrOffsetMap g;
     runningServersForked := b;
     DefaultReadTimeOut := DefaultReadTimeOut g;
     DefaultWriteTimeOut := DefaultWriteTimeOut g;
     DefaultMaxHeaderBytes := DefaultMaxHeaderBytes g;
     DefaultHammerTime := DefaultHammerTime g;
     g_isChild := g_isChild g;
     socketOrder := socketOrder g;
     heap := heap g |}.

(** The package state after [init]. *)
Definition init : process := {|
  runningServers := ∅;
  runningServersOrder := [];
  socketPtrOffsetMap := ∅;
  runningServersForked := false;
  DefaultReadTimeOut := 0;
  DefaultWriteTimeOut := 0;
  DefaultMaxHeaderBytes := 0;
  DefaultHammerTime := 60 * 1000000000;
  g_isChild := false;
  socketOrder := EmptyString;
  heap := []
|}.

(** What the package does to the outside world, in program order. *)
Inductive event :=
| EvGoHandleSignals                   (* go srv.handleSignals() *)
| EvGoHammerTime (d : Z)              (* go srv.hammerTime(d) *)
| EvKill (pid : Z) (sig : Signal)     (* syscall.Kill(pid, sig) *)
| EvSleep (d : Z)                     (* time.Sleep(d), in nanoseconds *)
| EvBeforeBegin (addr : string)       (* srv.BeforeBegin(addr) *)
| EvHook (h : Hook)                   (* a registered hook runs *)
| EvSetKeepAlivesEnabled (b : bool)
| EvListenerClose (sock : File)       (* el.Listener.Close() *)
| EvStart (c : Cmd)                   (* cmd.Start() *)
| EvFatal                             (* logFatalf *)
| EvLog (msg : string)                (* logPrintln, logPrintf *)
| EvServe.                            (* srv.Serve() is entered *)

Definition Millisecond : Z := 1000000.
Definition Second : Z := 1000 * Millisecond.

(* ===================================================================== *)
(** * NewServer                                                            *)
(* ===================================================================== *)

(** The loop [for i, addr := range strings.Split(socketOrder, ",")]
    storing [uint(i)] under [addr], from index [i] on. *)
Fixpoint assign_offsets (i : Z) (addrs : list string) (m : gmap string Z)
  : gmap string Z :=
  match addrs with
  | [] => m
  | a :: rest => assign_offsets (i + 1) rest (<[a := i]> m)
  end.

Definition empty_hooks : gmap Z (list Hook) :=
  list_to_map ((fun s => (s, @nil Hook)) <$> hookableSignals).

(** The object [NewServer] builds: the struct literal and the fields set
    from the defaults. *)
Definition new_endlessServer (addr : string) (isChild' : bool) (g : process)
  : endlessServer := {|
  Addr := addr;
  ReadTimeout := DefaultReadTimeOut g;
  WriteTimeout := DefaultWriteTimeOut g;
  MaxHeaderBytes := DefaultMaxHeaderBytes g;
  keepAlives := true;
  EndlessListener := ListenerNil;
  SignalHooks := <[PRE_SIGNAL := empty_hooks]> (<[POST_SIGNAL := empty_hooks]> ∅);
  tlsInnerListener := None;
  wg := 0;
  isChild := isChild';
  state := STATE_INIT
|}.

(** [NewServer(addr, handler)]: the new object is allocated at the end
    of the heap and its pointer returned. *)
Definition NewServer (os : OS) (addr : string) (g : process) : ptr * process :=
  let socketOrder' := Getenv os "ENDLESS_SOCKET_ORDER"%string in
  let isChild' := negb (bool_decide (Getenv os "ENDLESS_CONTINUE"%string = EmptyString)) in
  let offsets :=
    if bool_decide (len socketOrder' > 0)
    then assign_offsets 0 (Split socketOrder' comma) (socketPtrOffsetMap g)
    else <[addr := Z.of_nat (length (runningServersOrder g))]>
           (socketPtrOffsetMap g) in
  let srv := new_endlessServer addr isChild' g in
  let p := length (heap g) in
  (p,
   {| runningServers := <[addr := p]> (runningServers g);
      runningServersOrder := runningServersOrder g ++ [addr];
      socketPtrOffsetMap := offsets;
      runningServersForked := runningServersForked g;
      DefaultReadTimeOut := DefaultReadTimeOut g;
      DefaultWriteTimeOut := DefaultWriteTimeOut g;
      DefaultMaxHeaderBytes := DefaultMaxHeaderBytes g;
      DefaultHammerTime := DefaultHammerTime g;
      g_isChild := isChild';
      socketOrder := socketOrder';
      heap := heap g ++ [srv] |}).

(* ===================================================================== *)
(** * getListener                                                          *)
(* ===================================================================== *)

(** The descriptor offset computed in the child branch. *)
Definition ptrOffset (g : process) (laddr : string) : Z :=
  if bool_decide (Z.of_nat (size (socketPtrOffsetMap g)) > 0)
  then map_index (socketPtrOffsetMap g) laddr
  else 0.

(** The request [getListener] makes. *)
Definition getListener_request (srv : endlessServer) (g : process) (laddr : string)
  : acquire :=
  if isChild srv then FromFile (uint_wrap (3 + ptrOffset g laddr))
  else Listen laddr.

(** [getListener(laddr)]: the answer of the operating system, errors
    wrapped. *)
Definition getListener (os : OS) (srv : endlessServer) (g : process) (laddr : string)
  : File + string :=
  match getListener_request srv g laddr with
  | FromFile fd =>
      match os_open os (FromFile fd) with
      | inl l => inl l
      | inr e => inr ("net.FileListener error: " +:+ e)
      end
  | Listen a =>
      match os_open os (Listen a) with
      | inl l => inl l
      | inr e => inr ("net.Listen error: " +:+ e)
      end
  end.

(* ===================================================================== *)
(** * The outstanding-connection counter                                   *)
(* ===================================================================== *)

(** A call either returns or panics. *)
Inductive outcome (A : Type) :=
| Ret (a : A)
| Panic.
Arguments Ret {A} a.
Arguments Panic {A}.

(** [sync.WaitGroup.Add(delta)]: the counter is updated, and the call
    panics when the new value is negative. *)
Definition wg_Add (delta : Z) (c : Z) : Z * bool :=
  (c + delta, bool_decide (c + delta < 0)).

(** [sync.WaitGroup.Done()] is [Add(-1)]. *)
Definition wg_Done (c : Z) : Z * bool := wg_Add (-1) c.

(** [endlessConn]: the TCP connection it wraps; the server it belongs to
    is the one the operations below are applied to. *)
Record endlessConn := { Conn : File }.

(** [endlessListener.Accept()]; [tc] is what [AcceptTCP] returned.  The
    keep-alive settings made on the new connection are left out. *)
Definition Accept (tc : File + string) (srv : endlessServer)
  : endlessServer * outcome (endlessConn + string) :=
  match tc with
  | inr err => (srv, Ret (inr err))
  | inl c =>
      let '(n, panics) := wg_Add 1 (wg srv) in
      (set_wg n srv, if panics then Panic else Ret (inl {| Conn := c |}))
  end.

(** [endlessConn.Close()]; [err] is what the wrapped connection's [Close]
    returned ([None] is [nil]). *)
Definition endlessConn_Close (err : option string) (srv : endlessServer)
  : endlessServer * outcome (option string) :=
  match err with
  | None =>
      let '(n, panics) := wg_Done (wg srv) in
      (set_wg n srv, if panics then Panic else Ret None)
  | Some e => (srv, Ret (Some e))
  end.

(** Any number of [Close] calls on one connection, given what the wrapped
    connection answered each time. *)
Definition Close_calls (errs : list (option string)) (srv : endlessServer)
  : endlessServer :=
  foldl (fun s err => (endlessConn_Close err s).1) srv errs.

(** How many of the wrapped closes succeeded. *)
Definition successes (errs : list (option string)) : nat :=
  length (filter (fun err => err = None) errs).

(* ===================================================================== *)
(** * The tracking listener                                                *)
(* ===================================================================== *)

Definition newEndlessListener (l : File) : endlessListener :=
  {| el_socket := l; stopped := false |}.

Definition EINVAL : string := "invalid argument".

(** [endlessListener.Close()]. *)
Definition endlessListener_Close (os : OS) (el : endlessListener)
  : endlessListener * option string * list event :=
  if stopped el then (el, Some EINVAL, [])
  else ({| el_socket := el_socket el; stopped := true |},
        os_close os (el_socket el),
        [EvListenerClose (el_socket el)]).

(** [endlessListener.File()]: the duplicate, [nil] when [dup] failed. *)
Definition endlessListener_File (os : OS) (el : endlessListener) : option File :=
  os_dup os (el_socket el).

(** [srv.EndlessListener.Close()] through the interface: the TLS listener
    hands the call to the tracking listener beneath it. *)
Definition EndlessListener_Close (os : OS) (srv : endlessServer)
  : endlessServer * outcome (option string) * list event :=
  match EndlessListener srv with
  | ListenerNil => (srv, Panic, [])
  | ListenerEndless el =>
      let '(el', err, evs) := endlessListener_Close os el in
      (set_EndlessListener (ListenerEndless el') srv, Ret err, evs)
  | ListenerTLS =>
      match tlsInnerListener srv with
      | None => (srv, Panic, [])
      | Some el =>
          let '(el', err, evs) := endlessListener_Close os el in
          (set_tlsInnerListener (Some el') srv, Ret err, evs)
      end
  end.

(** The tracking listener the server serves on, if it has one. *)
Definition tracking_listener (srv : endlessServer) : option endlessListener :=
  match EndlessListener srv with
  | ListenerNil => None
  | ListenerEndless el => Some el
  | ListenerTLS => tlsInnerListener srv
  end.

(* ===================================================================== *)
(** * Serve, shutdown, hammerTime                                          *)
(* ===================================================================== *)

(** [Serve] before it blocks in the serving loop: [setState(STATE_RUNNING)]. *)
Definition Serve_begin (srv : endlessServer) : endlessServer :=
  set_state STATE_RUNNING srv.


(** [shutdown()].  The boolean tells whether the call panicked. *)
Definition shutdown (os : OS) (g : process) (srv : endlessServer)
  : endlessServer * list event * bool :=
  if negb (bool_decide (state srv = STATE_RUNNING)) then (srv, [], false)
  else
    let srv1 := set_state STATE_SHUTTING_DOWN srv in
    let hammer :=
      if bool_decide (DefaultHammerTime g >= 0)
      then [EvGoHammerTime (DefaultHammerTime g)] else [] in
    let srv2 := set_keepAlives false srv1 in
    let '(srv3, res, closing) := EndlessListener_Close os srv2 in
    match res with
    | Panic => (srv3, hammer ++ [EvSetKeepAlivesEnabled false] ++ closing, true)
    | Ret (Some e) =>
        (srv3, hammer ++ [EvSetKeepAlivesEnabled false] ++ closing
               ++ [EvLog ("Listener.Close() error: " +:+ e)], false)
    | Ret None =>
        (srv3, hammer ++ [EvSetKeepAlivesEnabled false] ++ closing
               ++ [EvLog "Listener closed."], false)
    end.

(** The loop of [hammerTime], run without interruption: [Done] until the
    state is [STATE_TERMINATE] or [Done] panics; the deferred function
    recovers the panic and logs it.  [None]: the fuel ran out. *)
Fixpoint hammer_loop (fuel : nat) (srv : endlessServer)
  : option (endlessServer * list event) :=
  match fuel with
  | O => None
  | S fuel' =>
      if bool_decide (state srv = STATE_TERMINATE) then Some (srv, [])
      else
        let '(n, panics) := wg_Done (wg srv) in
        if panics then Some (set_wg n srv, [EvLog "WaitGroup at 0"])
        else hammer_loop fuel' (set_wg n srv)
  end.

(** [hammerTime(d)]. *)
Definition hammerTime (fuel : nat) (d : Z) (srv : endlessServer)
  : option (endlessServer * list event) :=
  if negb (bool_decide (state srv = STATE_SHUTTING_DOWN)) then Some (srv, [])
  else
    match hammer_loop fuel srv with
    | Some (srv', evs) =>
        Some (srv', [EvSleep d;
                     EvLog "[STOP - Hammer Time] Forcefully shutting down parent"]
                    ++ evs)
    | None => None
    end.

(* ===================================================================== *)
(** * Signal hooks                                                         *)
(* ===================================================================== *)

(** [srv.SignalHooks[ppFlag][sig]]; a missing entry reads as no hooks. *)
Definition hooks_for (srv : endlessServer) (ppFlag : Z) (sig : Signal) : list Hook :=
  default [] (SignalHooks srv !! ppFlag ≫= fun m => m !! sig).

(** [signalHooks(ppFlag, sig)]: the hooks run in the order of the list. *)
Definition signalHooks (ppFlag : Z) (sig : Signal) (srv : endlessServer) : list event :=
  EvHook <$> hooks_for srv ppFlag sig.

Inductive hookError :=
| ErrPrePost (sig : Signal)         (* "Cannot use %v for prePost arg. ..." *)
| ErrNotSupported (sig : Signal).   (* "Signal %v is not supported." *)

(** [RegisterSignalHook(prePost, sig, f)]; storing into a missing inner
    map panics. *)
Definition RegisterSignalHook (prePost : Z) (sig : Signal) (f : Hook)
  (srv : endlessServer) : endlessServer * outcome (option hookError) :=
  if bool_decide (prePost ≠ PRE_SIGNAL) && bool_decide (prePost ≠ POST_SIGNAL)
  then (srv, Ret (Some (ErrPrePost sig)))
  else if bool_decide (sig ∈ hookableSignals)
  then match SignalHooks srv !! prePost with
       | None => (srv, Panic)
       | Some m =>
           (set_SignalHooks
              (<[prePost := <[sig := default [] (m !! sig) ++ [f]]> m]> (SignalHooks srv))
              srv,
            Ret None)
       end
  else (srv, Ret (Some (ErrNotSupported sig))).

(* ===================================================================== *)
(** * ListenAndServe and ListenAndServeTLS                                 *)
(* ===================================================================== *)

(** The loop [for cnt := 0; cnt < 3; cnt++] of [ListenAndServe], with
    [n] rounds left; [ppid] was read once before the loop. *)
Fixpoint sigterm_parent (n : nat) (ppid : Z) : list event :=
  match n with
  | O => []
  | S n' =>
      if bool_decide (ppid = 1) then [EvLog "ppid is 1"]
      else EvKill ppid SIGTERM :: EvLog "send sigterm to parent"
             :: EvSleep (10 * Millisecond) :: sigterm_parent n' ppid
  end.

(** [ListenAndServe()] up to the call of [Serve]: the server as it is
    left, the events in program order, and the error returned early
    ([None]: [Serve] was entered and its result is returned). *)
Definition ListenAndServe (os : OS) (g : process) (srv : endlessServer)
  : endlessServer * list event * option string :=
  let addr := if bool_decide (Addr srv = EmptyString) then ":http"%string else Addr srv in
  match getListener os srv g addr with
  | inr err => (srv, [EvGoHandleSignals; EvLog err], Some err)
  | inl l =>
      (set_EndlessListener (ListenerEndless (newEndlessListener l)) srv,
       [EvGoHandleSignals]
         ++ (if isChild srv then sigterm_parent 3 (Getppid os) else [])
         ++ [EvBeforeBegin (Addr srv); EvServe],
       None)
  end.

(** [ListenAndServeTLS(certFile, keyFile)] up to the call of [Serve];
    [cert] is the error of [tls.LoadX509KeyPair], if any. *)
Definition ListenAndServeTLS (os : OS) (cert : option string) (g : process)
  (srv : endlessServer) : endlessServer * list event * option string :=
  let addr := if bool_decide (Addr srv = EmptyString) then ":https"%string else Addr srv in
  match cert with
  | Some err => (srv, [], Some err)
  | None =>
      match getListener os srv g addr with
      | inr err => (srv, [EvGoHandleSignals; EvLog err], Some err)
      | inl l =>
          (set_EndlessListener ListenerTLS
             (set_tlsInnerListener (Some (newEndlessListener l)) srv),
           [EvGoHandleSignals]
             ++ (if isChild srv
                 then [EvKill (Getppid os) SIGTERM;
                       EvLog "error while sending sigterm to parent"]
                 else [])
             ++ [EvLog (Addr srv); EvServe],
           None)
      end
  end.

(* ===================================================================== *)
(** * fork                                                                 *)
(* ===================================================================== *)

(** The loop [for _, srvPtr := range runningServers] over the entries in
    the order [iter] in which the map happens to be visited.  [None]: a
    panic (nil listener, nil server, slot out of range). *)
Fixpoint fork_loop (os : OS) (g : process) (iter : list (string * ptr))
  (files : list (option File)) (orderArgs : list string)
  : option (list (option File) * list string) :=
  match iter with
  | [] => Some (files, orderArgs)
  | (_, p) :: rest =>
      match heap g !! p with
      | None => None
      | Some srvPtr =>
          let slot := map_index (socketPtrOffsetMap g) (Addr srvPtr) in
          let file :=
            match EndlessListener srvPtr with
            | ListenerEndless el => Some (endlessListener_File os el)
            | _ => endlessListener_File os <$> tlsInnerListener srvPtr
            end in
          match file with
          | None => None
          | Some f =>
              if bool_decide (0 ≤ slot < Z.of_nat (length files))
              then fork_loop os g rest
                     (<[Z.to_nat slot := f]> files)
                     (<[Z.to_nat slot := Addr srvPtr]> orderArgs)
              else None
          end
      end
  end.

Definition already_forked : string :=
  "Another process already forked. Ignoring this one.".

(** [fork()]; [iter] is the order in which [range] visits the registry,
    some permutation of its entries. *)
Definition fork (os : OS) (iter : list (string * ptr)) (g : process)
  : process * list event * outcome (option string) :=
  if runningServersForked g then (g, [], Ret (Some already_forked))
  else
    let g1 := set_forked true g in
    let n := size (runningServers g) in
    match fork_loop os g1 iter (replicate n None) (replicate n EmptyString) with
    | None => (g1, [], Panic)
    | Some (files, orderArgs) =>
        let env :=
          Environ os ++ ["ENDLESS_CONTINUE=1"%string]
            ++ (if bool_decide (Z.of_nat n > 1)
                then ["ENDLESS_SOCKET_ORDER=" +:+ Join orderArgs comma]
                else []) in
        let cmd := {| cmd_Path := Args0 os; cmd_Args := Args1 os;
                      cmd_ExtraFiles := files; cmd_Env := env |} in
        match os_start os cmd with
        | None => (g1, [EvStart cmd], Ret None)
        | Some err => (g1, [EvStart cmd; EvFatal], Ret (Some err))
        end
    end.

(** The children a trace started. *)
Definition spawned (evs : list event) : list Cmd :=
  omap (fun e => match e with EvStart c => Some c | _ => None end) evs.

(* ===================================================================== *)
(** * handleSignals                                                        *)
(* ===================================================================== *)

(** The [switch sig] of the signal loop for the server at [p]: the
    process afterwards, the events, and whether the action panicked.
    [None]: the hammer ran out of fuel. *)
Definition dispatch (fuel : nat) (os : OS) (iter : list (string * ptr))
  (sig : Signal) (p : ptr) (srv : endlessServer) (g : process)
  : option (process * list event * bool) :=
  if bool_decide (sig = SIGHUP) then
    let '(g', evs, res) := fork os iter g in
    match res with
    | Panic => Some (g', EvLog "Received SIGHUP. forking." :: evs, true)
    | Ret (Some err) =>
        Some (g', EvLog "Received SIGHUP. forking." :: evs
                    ++ [EvLog ("Fork err: " +:+ err)], false)
    | Ret None => Some (g', EvLog "Received SIGHUP. forking." :: evs, false)
    end
  else if bool_decide (sig = SIGUSR1) then
    Some (g, [EvLog "Received SIGUSR1."], false)
  else if bool_decide (sig = SIGUSR2) then
    match hammerTime fuel (0 * Second) srv with
    | Some (srv', evs) =>
        Some (set_heap (<[p := srv']> (heap g)) g,
              EvLog "Received SIGUSR2." :: evs, false)
    | None => None
    end
  else if bool_decide (sig = SIGINT) then
    let '(srv', evs, panics) := shutdown os g srv in
    Some (set_heap (<[p := srv']> (heap g)) g,
          EvLog "Received SIGINT." :: evs, panics)
  else if bool_decide (sig = SIGTERM) then
    let '(srv', evs, panics) := shutdown os g srv in
    Some (set_heap (<[p := srv']> (heap g)) g,
          EvLog "Received SIGTERM." :: evs, panics)
  else if bool_decide (sig = SIGTSTP) then
    Some (g, [EvLog "Received SIGTSTP."], false)
  else Some (g, [EvLog "nothing i care about..."], false).

(** One round of the loop of [handleSignals] for the signal [sig]: the
    Pre hooks, the action, the Post hooks.  A panic in the action ends
    the round before the Post hooks. *)
Definition handleSignal (fuel : nat) (os : OS) (iter : list (string * ptr))
  (sig : Signal) (p : ptr) (g : process)
  : option (process * list event * bool) :=
  match heap g !! p with
  | None => Some (g, [], true)
  | Some srv =>
      match dispatch fuel os iter sig p srv g with
      | None => None
      | Some (g', evs, true) => Some (g', signalHooks PRE_SIGNAL sig srv ++ evs, true)
      | Some (g', evs, false) =>
          Some (g', signalHooks PRE_SIGNAL sig srv ++ evs
                      ++ match heap g' !! p with
                         | Some srv' => signalHooks POST_SIGNAL sig srv'
                         | None => []
                         end,
                false)
      end
  end.

(** The package-level [ListenAndServe(addr, handler)]: [NewServer], then
    the method on the new object, written back through its pointer. *)
Definition pkg_ListenAndServe (os : OS) (addr : string) (g : process)
  : process * list event * option string :=
  let '(p, g1) := NewServer os addr g in
  match heap g1 !! p with
  | None => (g1, [], None)
  | Some srv =>
      let '(srv', evs, err) := ListenAndServe os g1 srv in
      (set_heap (<[p := srv']> (heap g1)) g1, evs, err)
  end.

(** Several servers started one after the other. *)
Definition start_all (os : OS) (addrs : list string) (g : process) : process :=
  foldl (fun g a => (pkg_ListenAndServe os a g).1.1) g addrs.

(** Several [NewServer] calls one after the other. *)
Definition register_all (os : OS) (addrs : list string) (g : process) : process :=
  foldl (fun g a => (NewServer os a g).2) g addrs.

(** [SIGHUP] delivered to the signal loops of the servers [ps], in turn;
    each delivery comes with the order in which its [fork] visits the
    registry. *)
Fixpoint deliver_HUPs (os : OS) (ds : list (ptr * list (string * ptr)))
  (g : process) : process * list event :=
  match ds with
  | [] => (g, [])
  | (p, iter) :: rest =>
      match handleSignal 0 os iter SIGHUP p g with
      | Some (g', evs, _) =>
          let '(g'', evs') := deliver_HUPs os rest g' in (g'', evs ++ evs')
      | None => (g, [])
      end
  end.

(** A history of [RegisterSignalHook] calls on one server; the results
    of the calls are dropped. *)
Definition register_hooks (history : list (Z * Signal * Hook)) (srv : endlessServer)
  : endlessServer :=
  foldl (fun s c => (RegisterSignalHook c.1.1 c.1.2 c.2 s).1) srv history.






(* ===================================================================== *)
(** * The earlier revision ([endless.go])                                  *)
(* ===================================================================== *)

Module Legacy.

(** [endlessServer] of the earlier revision: no state, no lock. *)
Record endlessServer := {
  Addr : string;
  EndlessListener : netListener;
  tlsInnerListener : option endlessListener;
  wg : Z;
  isChild : bool
}.

Record process := {
  runningServers : gmap string ptr;
  runningServersOrder : gmap Z string;
  runningServersForked : bool;
  heap : list endlessServer
}.

Definition set_forked (b : bool) (g : process) : process :=
  {| runningServers := runningServers g;
     runningServersOrder := runningServersOrder g;
     runningServersForked := b;
     heap := heap g |}.

(** The loop over the registry: the descriptors are appended in the
    order of the visit. *)
Fixpoint fork_loop (os : OS) (g : process) (iter : list (string * ptr))
  (files : list (option File)) : option (list (option File)) :=
  match iter with
  | [] => Some files
  | (_, p) :: rest =>
      match heap g !! p with
      | None => None
      | Some srvPtr =>
          let file :=
            match EndlessListener srvPtr with
            | ListenerEndless el => Some (endlessListener_File os el)
            | _ => endlessListener_File os <$> tlsInnerListener srvPtr
            end in
          match file with
          | None => None
          | Some f => fork_loop os g rest (files ++ [f])
          end
      end
  end.

(** [fork()] of the earlier revision: when the flag is set it returns
    with [err] still [nil]. *)
Definition fork (os : OS) (iter : list (string * ptr)) (g : process)
  : process * list event * outcome (option string) :=
  if runningServersForked g then (g, [], Ret None)
  else
    let g1 := set_forked true g in
    match fork_loop os g1 iter [] with
    | None => (g1, [], Panic)
    | Some files =>
        let cmd := {| cmd_Path := Args0 os; cmd_Args := ["-continue"%string];
                      cmd_ExtraFiles := files; cmd_Env := [] |} in
        match os_start os cmd with
        | None => (g1, [EvStart cmd], Ret None)
        | Some err => (g1, [EvStart cmd; EvFatal], Ret (Some err))
        end
    end.

(** [getListener(laddr)] of the earlier revision: the offset is the key
    of the first entry of [runningServersOrder], in the order [iter] of
    the visit, whose address is [laddr]. *)
Fixpoint find_offset (iter : list (Z * string)) (laddr : string) : Z :=
  match iter with
  | [] => 0
  | (i, addr) :: rest =>
      if bool_decide (addr = laddr) then i else find_offset rest laddr
  end.

Definition getListener_request (iter : list (Z * string)) (srv : endlessServer)
  (laddr : string) : acquire :=
  if isChild srv then FromFile (uint_wrap (3 + find_offset iter laddr))
  else Listen laddr.

(** [endlessConn.Close()] of the earlier revision: [Done] first, then
    the wrapped [Close], whatever it answers. *)
Definition endlessConn_Close (err : option string) (srv : endlessServer)
  : endlessServer * outcome (option string) :=
  let '(n, panics) := wg_Done (wg srv) in
  ({| Addr := Addr srv; EndlessListener := EndlessListener srv;
      tlsInnerListener := tlsInnerListener srv; wg := n;
      isChild := isChild srv |},
   if panics then Panic else Ret err).

(** Any number of [fork] calls, one per SIGHUP that some signal loop
    received. *)
Fixpoint fork_calls (os : OS) (iters : list (list (string * ptr))) (g : process)
  : process * list event :=
  match iters with
  | [] => (g, [])
  | iter :: rest =>
      let '(g', evs, _) := fork os iter g in
      let '(g'', evs') := fork_calls os rest g' in (g'', evs ++ evs')
  end.

(** The descriptor the loop of [fork] takes from the server at [p].
    [None]: the call panics. *)
Definition server_file (os : OS) (g : process) (p : ptr) : option (option File) :=
  match heap g !! p with
  | None => None
  | Some srvPtr =>
      match EndlessListener srvPtr with
      | ListenerEndless el => Some (endlessListener_File os el)
      | _ => endlessListener_File os <$> tlsInnerListener srvPtr
      end
  end.

End Legacy.

(* ===================================================================== *)
(** * Concrete processes used in the examples                              *)
(* ===================================================================== *)

(** A first-generation parent: no restart variables in the environment;
    every system call succeeds and a listener gets a socket numbered
    after the length of its address. *)
Definition parent_os : OS := {|
  Getenv := fun _ => EmptyString;
  Environ := ["PATH=/bin"%string];
  Args0 := "/srv/app";
  Args1 := ["-v"%string];
  Getppid := 4242;
  os_open := fun req =>
    match req with
    | Listen a => inl (100 + len a)
    | FromFile fd => inl fd
    end;
  os_close := fun _ => None;
  os_dup := fun f => Some (f + 1000);
  os_start := fun _ => None
|}.

(** A restart child that received [order] in [ENDLESS_SOCKET_ORDER] and
    whose parent has pid [ppid]. *)
Definition child_os (order : string) (ppid : Z) : OS := {|
  Getenv := fun k =>
    if bool_decide (k = "ENDLESS_SOCKET_ORDER"%string) then order
    else if bool_decide (k = "ENDLESS_CONTINUE"%string) then "1"%string
    else EmptyString;
  Environ := ["PATH=/bin"%string; "ENDLESS_CONTINUE=1"%string];
  Args0 := "/srv/app";
  Args1 := ["-v"%string];
  Getppid := ppid;
  os_open := fun req =>
    match req with
    | Listen a => inl (100 + len a)
    | FromFile fd => inl fd
    end;
  os_close := fun _ => None;
  os_dup := fun f => Some (f + 1000);
  os_start := fun _ => None
|}.

(** A server as [NewServer] makes it, in the given state. *)
Definition server_in (st : State) (child : bool) (l : netListener) : endlessServer :=
  set_state st (set_EndlessListener l (new_endlessServer ":8080" child init)).

(** A process whose one server, at pointer 0, has been started on [addr]
    and has entered its serving loop ([Serve] has set the state). *)
Definition served (os : OS) (addr : string) : process :=
  let g := (pkg_ListenAndServe os addr init).1.1 in
  set_heap (alter Serve_begin 0%nat (heap g)) g.


(** The events of the three rounds of SIGTERM to the parent [ppid]. *)
Definition three_sigterms (ppid : Z) : list event :=
  [EvKill ppid SIGTERM; EvLog "send sigterm to parent"; EvSleep (10 * Millisecond);
   EvKill ppid SIGTERM; EvLog "send sigterm to parent"; EvSleep (10 * Millisecond);
   EvKill ppid SIGTERM; EvLog "send sigterm to parent"; EvSleep (10 * Millisecond)].

(** The registry of a first-generation parent whose servers, registered
    in the order [addrs], all have their listener: offsets by order of
    registration, one heap object per address, each with its tracking
    listener in [EndlessListener]. *)
Definition serving_registry (addrs : list string) (g : process) : Prop :=
  socketPtrOffsetMap g = assign_offsets 0 addrs ∅ /\
  runningServersOrder g = addrs /\
  runningServersForked g = false /\
  (forall a, a ∈ addrs <-> is_Some (runningServers g !! a)) /\
  size (runningServers g) = length addrs /\
  (forall a p, runningServers g !! a = Some p ->
     exists srv el, heap g !! p = Some srv /\ Addr srv = a /\
                    EndlessListener srv = ListenerEndless el).

(** Both phases have their inner map, as in the literal of [NewServer]. *)
Definition hooks_ready (srv : endlessServer) : Prop :=
  is_Some (SignalHooks srv !! PRE_SIGNAL) /\ is_Some (SignalHooks srv !! POST_SIGNAL).

(* ===================================================================== *)
(** * Runs of calls, used to state how the operations compose              *)
(* ===================================================================== *)

(** [n] calls of [Close] on one tracking listener: the listener
    afterwards, what each call returned, and the events. *)
Fixpoint Close_listener_calls (os : OS) (n : nat) (el : endlessListener)
  : endlessListener * list (option string) * list event :=
  match n with
  | O => (el, [], [])
  | S n' =>
      let '(el1, err, evs) := endlessListener_Close os el in
      let '(el2, errs, evs') := Close_listener_calls os n' el1 in
      (el2, err :: errs, evs ++ evs')
  end.

(** The hooks a history of registrations names for (phase, signal), in
    the order of the calls. *)
Definition registered_for (ppFlag : Z) (sig : Signal)
  (history : list (Z * Signal * Hook)) : list Hook :=
  omap (fun c : Z * Signal * Hook =>
          if bool_decide (c.1.1 = ppFlag /\ c.1.2 = sig) then Some c.2 else None)
       history.

(** What happens to the connections of one server: [Accept] is called
    and [AcceptTCP] answers [tc], or [Close] is called on a connection
    and its wrapped [Close] answers [err]. *)
Inductive conn_event :=
| CeAccept (tc : File + string)
| CeClose (err : option string).

Definition run_conn_event (srv : endlessServer) (e : conn_event) : endlessServer :=
  match e with
  | CeAccept tc => (Accept tc srv).1
  | CeClose err => (endlessConn_Close err srv).1
  end.

Definition run_conn_events (evs : list conn_event) (srv : endlessServer)
  : endlessServer :=
  foldl run_conn_event srv evs.

(** Connections handed out, and connections closed with success. *)
Definition is_accepted (e : conn_event) : bool :=
  match e with CeAccept (inl _) => true | _ => false end.

Definition is_closed (e : conn_event) : bool :=
  match e with CeClose None => true | _ => false end.

Definition accepted (evs : list conn_event) : nat :=
  length (filter (fun e => is_accepted e = true) evs).

Definition closed (evs : list conn_event) : nat :=
  length (filter (fun e => is_closed e = true) evs).

(** The address a method listens on: [srv.Addr], or [dflt] when it is
    blank. *)
Definition listen_address (dflt : string) (srv : endlessServer) : string :=
  if bool_decide (Addr srv = EmptyString) then dflt else Addr srv.

(** The package-level [ListenAndServeTLS(addr, certFile, keyFile,
    handler)]; [cert] is the error of loading the key pair, if any. *)
Definition pkg_ListenAndServeTLS (os : OS) (cert : option string) (addr : string)
  (g : process) : process * list event * option string :=
  let '(p, g1) := NewServer os addr g in
  match heap g1 !! p with
  | None => (g1, [], None)
  | Some srv =>
      let '(srv', evs, err) := ListenAndServeTLS os cert g1 srv in
      (set_heap (<[p := srv']> (heap g1)) g1, evs, err)
  end.

(** Several servers started one after the other, each over HTTP
    ([false]) or over TLS with a certificate that loads ([true]). *)
Definition start_mixed (os : OS) (specs : list (string * bool)) (g : process)
  : process :=
  foldl (fun g spec =>
           if spec.2 : bool then (pkg_ListenAndServeTLS os None spec.1 g).1.1
           else (pkg_ListenAndServe os spec.1 g).1.1)
        g specs.

(** The descriptor [fork] takes from one server: the [switch] on the
    type of [EndlessListener].  [None]: the call panics. *)
Definition fork_file (os : OS) (srv : endlessServer) : option (option File) :=
  match EndlessListener srv with
  | ListenerEndless el => Some (endlessListener_File os el)
  | _ => endlessListener_File os <$> tlsInnerListener srv
  end.

(** The socket a server started by [start_mixed] listens on: the answer
    to its [net.Listen]. *)
Definition listening_on (os : OS) (tls : bool) (l : File) (srv : endlessServer) : Prop :=
  os_open os (Listen (listen_address (if tls then ":https" else ":http") srv)) = inl l /\
  if tls
  then EndlessListener srv = ListenerTLS /\
       tlsInnerListener srv = Some (newEndlessListener l)
  else EndlessListener srv = ListenerEndless (newEndlessListener l).

(** The registry of a first-generation parent whose servers [specs] all
    have their listener, over HTTP or TLS. *)
Definition ready_registry (os : OS) (specs : list (string * bool)) (g : process) : Prop :=
  socketPtrOffsetMap g = assign_offsets 0 specs.*1 ∅ /\
  runningServersOrder g = specs.*1 /\
  runningServersForked g = false /\
  (forall a, a ∈ specs.*1 <-> is_Some (runningServers g !! a)) /\
  size (runningServers g) = length specs /\
  (forall a p, runningServers g !! a = Some p ->
     exists srv tls l, (a, tls) ∈ specs /\ heap g !! p = Some srv /\ Addr srv = a /\
                       listening_on os tls l srv).

(* ===================================================================== *)
(** * Strings: Split and Join                                              *)
(* ===================================================================== *)

Section Strings.
Variable sep : ascii.

Lemma Split_nonempty (s : string) : Split s sep ≠ [].
Proof.
  destruct s as [|c s]; simpl; [done|].
  destruct (decide (c = sep)); [done|].
  destruct (Split s sep); done.
Qed.

(** A string without the separator is one piece. *)
Lemma Split_one_piece (s : string) :
  contains_byte sep s = false -> Split s sep = [s].
Proof.
  induction s as [|c s IH]; simpl; [done|].
  intros [Hc Hs]%orb_false_elim.
  apply bool_decide_eq_false in Hc.
  destruct (decide (c = sep)); [done|].
  by rewrite (IH Hs).
Qed.

(** A piece without the separator, then the separator: the piece is
    split off. *)
Lemma Split_piece_sep (e t : string) :
  contains_byte sep e = false ->
  Split (e +:+ String sep t) sep = e :: Split t sep.
Proof.
  induction e as [|c e IH]; simpl.
  - intros _. destruct (decide (sep = sep)); done.
  - intros [Hc He]%orb_false_elim.
    apply bool_decide_eq_false in Hc.
    destruct (decide (c = sep)); [done|].
    by rewrite (IH He).
Qed.

(** Joining pieces none of which holds the separator and splitting the
    result gives the pieces back. *)
Lemma Split_Join (elems : list string) :
  elems ≠ [] ->
  Forall (fun e => contains_byte sep e = false) elems ->
  Split (Join elems sep) sep = elems.
Proof.
  induction elems as [|e rest IH]; [done|].
  intros _ Hall. apply Forall_cons in Hall as [He Hrest].
  destruct rest as [|e' rest].
  - simpl. by apply Split_one_piece.
  - change (Join (e :: e' :: rest) sep)
      with (e +:+ String sep (Join (e' :: rest) sep)).
    rewrite Split_piece_sep by done.
    f_equal. by apply IH.
Qed.

(** With at least two pieces the joined string is not empty. *)
Lemma Join_len_pos (elems : list string) :
  (1 < length elems)%nat -> len (Join elems sep) > 0.
Proof.
  destruct elems as [|e [|e' rest]]; simpl; [lia..|].
  intros _. change (len (e +:+ String sep (Join (e' :: rest) sep)) > 0).
  unfold len. induction e; simpl; lia.
Qed.
End Strings.

(* ===================================================================== *)
(** * The outstanding counter: Accept and Close                            *)
(* ===================================================================== *)

Lemma Close_calls_wg (errs : list (option string)) (srv : endlessServer) :
  wg (Close_calls errs srv) = wg srv - Z.of_nat (successes errs).
Proof.
  unfold Close_calls, successes.
  revert srv. induction errs as [|err errs IH]; intros srv; [simpl; lia|].
  cbn [foldl]. rewrite IH. destruct err as [e|].
  - rewrite filter_cons_False by done. simpl. lia.
  - rewrite filter_cons_True by done. cbn [length]. simpl. lia.
Qed.

(** C1: a connection handed out by [Accept] has raised the counter by
    exactly one by the time [Accept] returns, a failed [Accept] leaves the
    server alone; [Close] lowers the counter by one when the wrapped close
    returned nil and leaves the server alone when it returned an error;
    so over any number of [Close] calls on a connection whose wrapped
    close succeeds at most once the counter goes down at most once. *)
Theorem outstanding_once_per_connection
  (srv : endlessServer) (tc : File) (errs : list (option string))
  (Hnet : (successes errs <= 1)%nat) :
  let accepted := (Accept (inl tc) srv).1 in
  wg accepted = wg srv + 1 /\
  (forall e, Accept (inr e) srv = (srv, Ret (inr e))) /\
  (forall s e, endlessConn_Close (Some e) s = (s, Ret (Some e))) /\
  (forall s, wg (endlessConn_Close None s).1 = wg s - 1) /\
  wg (Close_calls errs accepted) = wg accepted - Z.of_nat (successes errs) /\
  wg accepted - 1 <= wg (Close_calls errs accepted) <= wg accepted.
Proof.
  intros accepted. repeat split; try done.
  - apply Close_calls_wg.
  - rewrite Close_calls_wg. lia.
  - rewrite Close_calls_wg. lia.
Qed.

Lemma outstanding_once_per_connection_witness :
  let srv := server_in STATE_RUNNING false (ListenerEndless (newEndlessListener 5)) in
  let errs := [Some "timeout"%string; None; Some "closed"%string] in
  (successes errs <= 1)%nat /\
  wg (Close_calls errs (Accept (inl 9) srv).1) = 0.
Proof.
  intros srv errs.
  assert (H : (successes errs <= 1)%nat) by (vm_compute; lia).
  split; [exact H|].
  pose proof (outstanding_once_per_connection srv 9 errs H) as T.
  cbv zeta in T. destruct T as (Ha & _ & _ & _ & Hc & _).
  rewrite Hc, Ha. reflexivity.
Defined.

(* ===================================================================== *)
(** * shutdown                                                             *)
(* ===================================================================== *)

(** C5: [shutdown] returns at once, with the server as it was and nothing
    done, unless the state is Running.  From Running it sets the state to
    ShuttingDown, starts [hammerTime(DefaultHammerTime)] in a goroutine
    exactly when [DefaultHammerTime >= 0], then disables the keep-alives,
    then closes the listener: the tracking listener is stopped
    afterwards, and the socket under it is closed if it was not stopped
    before. *)
Theorem shutdown_spec (os : OS) (g : process) (srv : endlessServer) :
  (state srv <> STATE_RUNNING -> shutdown os g srv = (srv, [], false)) /\
  (state srv = STATE_RUNNING ->
   exists srv' closing panics,
     shutdown os g srv =
       (srv',
        (if bool_decide (DefaultHammerTime g >= 0)
         then [EvGoHammerTime (DefaultHammerTime g)] else [])
          ++ EvSetKeepAlivesEnabled false :: closing,
        panics) /\
     state srv' = STATE_SHUTTING_DOWN /\
     keepAlives srv' = false /\
     wg srv' = wg srv /\
     (forall d, EvGoHammerTime d ∉ closing) /\
     forall el, tracking_listener srv = Some el ->
       panics = false /\
       tracking_listener srv' =
         Some {| el_socket := el_socket el; stopped := true |} /\
       (stopped el = false -> head closing = Some (EvListenerClose (el_socket el)))).
Proof.
  split; intros Hst; unfold shutdown.
  - rewrite bool_decide_eq_false_2 by done. done.
  - rewrite bool_decide_eq_true_2 by done. cbn [negb].
    unfold EndlessListener_Close, endlessListener_Close, tracking_listener.
    destruct srv as [a rt wt mh ka l sh tls c ch st]; cbn in *.
    assert (Hnil : forall d, EvGoHammerTime d ∉ @nil event)
      by (intros d Hd; by apply elem_of_nil in Hd).
    assert (Hone : forall d e, e <> EvGoHammerTime d -> EvGoHammerTime d ∉ [e])
      by (intros d e Hne Hd; apply list_elem_of_singleton in Hd; congruence).
    assert (Htwo : forall d sock msg,
               EvGoHammerTime d ∉ [EvListenerClose sock; EvLog msg])
      by (intros d sock msg Hd; inversion Hd as [|? ? ? Hd']; subst;
          apply list_elem_of_singleton in Hd'; congruence).
    destruct l as [|[sock [|]]|]; cbn.
    + eexists _, [], true. split; [reflexivity|]. do 4 (split; [done|]). done.
    + eexists _, [_], false. split; [reflexivity|]. do 3 (split; [done|]).
      split; [intros d; by apply Hone|].
      intros el0 [= <-]. by cbn.
    + destruct (os_close os sock); cbn;
        eexists _, [_; _], false; (split; [reflexivity|]);
        do 3 (split; [done|]); (split; [intros d; apply Htwo|]);
        intros el0 [= <-]; by cbn.
    + destruct tls as [[sock [|]]|]; cbn.
      * eexists _, [_], false. split; [reflexivity|]. do 3 (split; [done|]).
        split; [intros d; by apply Hone|].
        intros el0 [= <-]. by cbn.
      * destruct (os_close os sock); cbn;
          eexists _, [_; _], false; (split; [reflexivity|]);
          do 3 (split; [done|]); (split; [intros d; apply Htwo|]);
          intros el0 [= <-]; by cbn.
      * eexists _, [], true. split; [reflexivity|]. do 4 (split; [done|]). done.
Qed.

Lemma shutdown_spec_witness :
  let idle := server_in STATE_INIT false (ListenerEndless (newEndlessListener 5)) in
  let busy := server_in STATE_RUNNING false (ListenerEndless (newEndlessListener 5)) in
  shutdown parent_os init idle = (idle, [], false) /\
  exists srv' closing panics,
    shutdown parent_os init busy =
      (srv', [EvGoHammerTime (60 * Second)] ++ EvSetKeepAlivesEnabled false :: closing,
       panics) /\
    state srv' = STATE_SHUTTING_DOWN /\
    tracking_listener srv' = Some {| el_socket := 5; stopped := true |}.
Proof.
  intros idle busy. split.
  - apply (proj1 (shutdown_spec parent_os init idle)). done.
  - destruct (proj2 (shutdown_spec parent_os init busy) eq_refl)
      as (srv' & closing & panics & Heq & Hst & _ & _ & _ & Hl).
    exists srv', closing, panics. split; [exact Heq|]. split; [exact Hst|].
    by destruct (Hl (newEndlessListener 5) eq_refl) as (_ & Ht & _).
Defined.

(* ===================================================================== *)
(** * RegisterSignalHook                                                   *)
(* ===================================================================== *)

Lemma hooks_ready_new (addr : string) (child : bool) (g : process) :
  hooks_ready (new_endlessServer addr child g).
Proof. split; cbn; eexists; by simplify_map_eq. Qed.

Lemma hooks_ready_Register (prePost : Z) (sig : Signal) (f : Hook) (srv : endlessServer) :
  hooks_ready srv -> hooks_ready (RegisterSignalHook prePost sig f srv).1.
Proof.
  intros [Hpre Hpost]. unfold RegisterSignalHook.
  destruct (bool_decide (prePost <> PRE_SIGNAL) && bool_decide (prePost <> POST_SIGNAL));
    [done|].
  destruct (bool_decide (sig ∈ hookableSignals)); [|done].
  destruct (SignalHooks srv !! prePost) as [m|]; [|done].
  split; cbn; apply lookup_insert_is_Some'; by right.
Qed.

Lemma hooks_ready_history (history : list (Z * Signal * Hook)) (srv : endlessServer) :
  hooks_ready srv -> hooks_ready (register_hooks history srv).
Proof.
  unfold register_hooks. revert srv.
  induction history as [|c history IH]; intros srv Hsrv; [done|].
  cbn [foldl]. apply IH. by apply hooks_ready_Register.
Qed.

(** C9: on a server made by [NewServer], after any history of
    registrations, [RegisterSignalHook(phase, sig, f)] with phase Pre or
    Post and [sig] among the hookable signals returns no error and puts
    [f] at the end of the list for (phase, sig), every other list being
    kept; with any other phase or signal it returns an error and the
    server, hook table included, is as before. *)
Theorem RegisterSignalHook_spec
  (addr : string) (child : bool) (g : process)
  (history : list (Z * Signal * Hook)) (prePost : Z) (sig : Signal) (f : Hook) :
  let srv := register_hooks history (new_endlessServer addr child g) in
  ((prePost = PRE_SIGNAL \/ prePost = POST_SIGNAL) /\ sig ∈ hookableSignals ->
   exists srv',
     RegisterSignalHook prePost sig f srv = (srv', Ret None) /\
     hooks_for srv' prePost sig = hooks_for srv prePost sig ++ [f] /\
     forall pp sg, pp <> prePost \/ sg <> sig ->
       hooks_for srv' pp sg = hooks_for srv pp sg) /\
  (~ ((prePost = PRE_SIGNAL \/ prePost = POST_SIGNAL) /\ sig ∈ hookableSignals) ->
   exists e, RegisterSignalHook prePost sig f srv = (srv, Ret (Some e))).
Proof.
  intros srv.
  assert (Hready : hooks_ready srv)
    by apply hooks_ready_history, hooks_ready_new.
  split.
  - intros [Hphase Hsig]. unfold RegisterSignalHook.
    assert (Hm : is_Some (SignalHooks srv !! prePost))
      by (destruct Hready; destruct Hphase; by subst).
    destruct Hm as [m Hm].
    rewrite (bool_decide_eq_true_2 _ Hsig), Hm.
    assert (Hguard : bool_decide (prePost <> PRE_SIGNAL)
                       && bool_decide (prePost <> POST_SIGNAL) = false).
    { destruct Hphase; subst; by repeat case_bool_decide. }
    rewrite Hguard. eexists. split; [reflexivity|].
    unfold hooks_for; cbn. split.
    + rewrite lookup_insert_eq, Hm. cbn. by rewrite lookup_insert_eq.
    + intros pp sg Hother.
      destruct (decide (pp = prePost)) as [->|Hpp].
      * rewrite lookup_insert_eq, Hm. cbn.
        destruct Hother as [?|Hsg]; [done|].
        by rewrite lookup_insert_ne.
      * by rewrite lookup_insert_ne.
  - intros Hbad. unfold RegisterSignalHook.
    destruct (bool_decide (prePost <> PRE_SIGNAL)
                && bool_decide (prePost <> POST_SIGNAL)) eqn:Hguard.
    + by eexists.
    + rewrite bool_decide_eq_false_2; [by eexists|].
      intros Hsig. apply Hbad. split; [|done].
      apply andb_false_iff in Hguard as [Hg|Hg];
        apply bool_decide_eq_false in Hg;
        destruct (decide (prePost = PRE_SIGNAL)); destruct (decide (prePost = POST_SIGNAL));
        tauto.
Qed.

Lemma RegisterSignalHook_spec_witness :
  let srv := register_hooks [(PRE_SIGNAL, SIGHUP, 1%nat)]
               (new_endlessServer ":8080" false init) in
  (exists srv',
     RegisterSignalHook PRE_SIGNAL SIGHUP 2%nat srv = (srv', Ret None) /\
     hooks_for srv' PRE_SIGNAL SIGHUP = [1%nat; 2%nat]) /\
  (exists e, RegisterSignalHook POST_SIGNAL 9 3%nat srv = (srv, Ret (Some e))) /\
  (exists e, RegisterSignalHook 2 SIGHUP 3%nat srv = (srv, Ret (Some e))).
Proof.
  intros srv. split; [|split].
  - destruct (proj1 (RegisterSignalHook_spec ":8080" false init
                       [(PRE_SIGNAL, SIGHUP, 1%nat)] PRE_SIGNAL SIGHUP 2%nat))
      as (srv' & Heq & Hl & _).
    + split; [by left|]. unfold hookableSignals. apply list_elem_of_here.
    + exists srv'. split; [exact Heq|]. rewrite Hl. reflexivity.
  - apply (proj2 (RegisterSignalHook_spec ":8080" false init
                    [(PRE_SIGNAL, SIGHUP, 1%nat)] POST_SIGNAL 9 3%nat)).
    intros [_ Hin]. vm_compute in Hin. by repeat (apply elem_of_cons in Hin as [Hin|Hin]; [done|]);
      apply elem_of_nil in Hin.
  - apply (proj2 (RegisterSignalHook_spec ":8080" false init
                    [(PRE_SIGNAL, SIGHUP, 1%nat)] 2 SIGHUP 3%nat)).
    intros [[H|H] _]; discriminate H.
Defined.

(* ===================================================================== *)
(** * The child's SIGTERM to its parent                                    *)
(* ===================================================================== *)

Lemma sigterm_parent_3 (ppid : Z) :
  sigterm_parent 3 ppid =
    if bool_decide (ppid = 1) then [EvLog "ppid is 1"] else three_sigterms ppid.
Proof. cbn. by case_bool_decide. Qed.

(** C7: in a restart child that got its listener, [ListenAndServe] sends
    SIGTERM to the parent three times, 10 ms apart, or not at all when
    the parent is process 1, and then calls [BeforeBegin] and [Serve].
    [ListenAndServeTLS] does otherwise: it sends SIGTERM once, without a
    pause and also to process 1, and it never calls [BeforeBegin]. *)
Theorem ListenAndServeTLS_sigterm_differs
  (os : OS) (g : process) (srv : endlessServer)
  (Hchild : isChild srv = true)
  (Hopen : forall fd, exists l, os_open os (FromFile fd) = inl l) :
  (ListenAndServe os g srv).1.2 =
    [EvGoHandleSignals]
      ++ (if bool_decide (Getppid os = 1) then [EvLog "ppid is 1"]
          else three_sigterms (Getppid os))
      ++ [EvBeforeBegin (Addr srv); EvServe] /\
  (ListenAndServeTLS os None g srv).1.2 =
    [EvGoHandleSignals; EvKill (Getppid os) SIGTERM;
     EvLog "error while sending sigterm to parent"; EvLog (Addr srv); EvServe].
Proof.
  unfold ListenAndServe, ListenAndServeTLS, getListener, getListener_request.
  rewrite Hchild. split.
  - match goal with |- context [os_open os (FromFile ?fd)] =>
      destruct (Hopen fd) as [l ->] end.
    cbn [fst snd]. by rewrite sigterm_parent_3.
  - match goal with |- context [os_open os (FromFile ?fd)] =>
      destruct (Hopen fd) as [l ->] end.
    done.
Qed.

Lemma ListenAndServeTLS_sigterm_differs_witness :
  let os := child_os EmptyString 1 in
  let srv := server_in STATE_INIT true ListenerNil in
  (ListenAndServe os init srv).1.2 =
    [EvGoHandleSignals; EvLog "ppid is 1"; EvBeforeBegin ":8080"; EvServe] /\
  (ListenAndServeTLS os None init srv).1.2 =
    [EvGoHandleSignals; EvKill 1 SIGTERM;
     EvLog "error while sending sigterm to parent"; EvLog ":8080"; EvServe].
Proof.
  intros os srv.
  apply (ListenAndServeTLS_sigterm_differs os init srv eq_refl).
  intros fd. by exists fd.
Defined.

(* ===================================================================== *)
(** * The hammer                                                           *)
(* ===================================================================== *)

(** The loop ends: with the counter at [n] or below, [n + 1] rounds are
    enough. *)
Lemma hammer_loop_returns (n : nat) (srv : endlessServer) :
  wg srv <= Z.of_nat n -> is_Some (hammer_loop (S n) srv).
Proof.
  revert srv. induction n as [|n IH]; intros srv Hwg; cbn [hammer_loop].
  - case_bool_decide; [by eexists|].
    unfold wg_Done, wg_Add. rewrite bool_decide_eq_true_2 by lia. by eexists.
  - case_bool_decide; [by eexists|].
    unfold wg_Done, wg_Add. case_bool_decide; [by eexists|].
    apply IH. cbn. lia.
Qed.

Lemma hammerTime_returns (d : Z) (srv : endlessServer) :
  is_Some (hammerTime (S (Z.to_nat (wg srv))) d srv).
Proof.
  unfold hammerTime. destruct (negb _); [by eexists|].
  destruct (hammer_loop_returns (Z.to_nat (wg srv)) srv) as [[srv' evs] ->]; [lia|].
  by eexists.
Qed.

(** The loop changes nothing but the counter. *)
Lemma hammer_loop_keeps (fuel : nat) (srv srv' : endlessServer) (evs : list event) :
  hammer_loop fuel srv = Some (srv', evs) ->
  state srv' = state srv /\ tracking_listener srv' = tracking_listener srv /\
  (state srv = STATE_TERMINATE -> srv' = srv).
Proof.
  revert srv. induction fuel as [|fuel IH]; intros srv; cbn [hammer_loop]; [done|].
  case_bool_decide as Hst.
  - by intros [= <- <-].
  - unfold wg_Done, wg_Add. case_bool_decide.
    + by intros [= <- <-].
    + intros Hrec. by destruct (IH _ Hrec) as (-> & -> & _).
Qed.

Lemma hammerTime_keeps (fuel : nat) (d : Z) (srv srv' : endlessServer) (evs : list event) :
  hammerTime fuel d srv = Some (srv', evs) ->
  state srv' = state srv /\ tracking_listener srv' = tracking_listener srv /\
  (state srv <> STATE_SHUTTING_DOWN -> srv' = srv /\ evs = []).
Proof.
  unfold hammerTime. case_bool_decide as Hst; cbn [negb].
  - destruct (hammer_loop fuel srv) as [[s e]|] eqn:Hloop; [|done].
    intros [= <- <-]. by destruct (hammer_loop_keeps _ _ _ _ Hloop) as (-> & -> & _).
  - by intros [= <- <-].
Qed.




(* ===================================================================== *)
(** * The lifecycle state                                                  *)
(* ===================================================================== *)

Lemma shutdown_state (os : OS) (g : process) (srv : endlessServer) :
  wg (shutdown os g srv).1.1 = wg srv /\
  (state srv <> STATE_RUNNING /\ (shutdown os g srv).1.1 = srv \/
   state srv = STATE_RUNNING /\ state (shutdown os g srv).1.1 = STATE_SHUTTING_DOWN).
Proof.
  unfold shutdown. case_bool_decide as Hst; cbn [negb].
  - assert (Hclose : forall s,
              wg (EndlessListener_Close os s).1.1 = wg s /\
              state (EndlessListener_Close os s).1.1 = state s).
    { intros s. unfold EndlessListener_Close, endlessListener_Close.
      destruct (EndlessListener s) as [|[sock [|]]|]; [done..|].
      by destruct (tlsInnerListener s) as [[sock [|]]|]. }
    specialize (Hclose (set_keepAlives false (set_state STATE_SHUTTING_DOWN srv))).
    destruct (EndlessListener_Close os _) as [[srv3 res] closing].
    cbn [fst] in Hclose. destruct Hclose as [Hwg Hstate].
    destruct res as [[e|]|]; cbn [fst]; (split; [done|by right]).
  - split; [done|]. by left.
Qed.





(* ===================================================================== *)
(** * fork: at most one child                                              *)
(* ===================================================================== *)

Lemma spawned_app (evs evs' : list event) :
  spawned (evs ++ evs') = spawned evs ++ spawned evs'.
Proof. apply omap_app. Qed.

Lemma spawned_hooks (ppFlag : Z) (sig : Signal) (srv : endlessServer) :
  spawned (signalHooks ppFlag sig srv) = [].
Proof. unfold signalHooks. by induction (hooks_for srv ppFlag sig). Qed.

Lemma fork_once (os : OS) (iter : list (string * ptr)) (g : process) :
  (runningServersForked g = true ->
   fork os iter g = (g, [], Ret (Some already_forked))) /\
  (runningServersForked g = false ->
   runningServersForked (fork os iter g).1.1 = true /\
   (length (spawned (fork os iter g).1.2) <= 1)%nat).
Proof.
  unfold fork. split; intros ->; [done|].
  destruct (fork_loop _ _ _ _ _) as [[files orderArgs]|]; [|cbn; split; [done|lia]].
  destruct (os_start os _); cbn; (split; [done|unfold spawned; simpl; lia]).
Qed.

Lemma handleSignal_HUP (os : OS) (iter : list (string * ptr)) (p : ptr) (g : process) :
  exists g' evs panics,
    handleSignal 0 os iter SIGHUP p g = Some (g', evs, panics) /\
    (length (spawned evs) <= 1)%nat /\
    (runningServersForked g = true ->
     runningServersForked g' = true /\ spawned evs = []) /\
    (spawned evs <> [] -> runningServersForked g' = true).
Proof.
  unfold handleSignal. destruct (heap g !! p) as [srv|].
  2: { eexists _, _, _. split; [reflexivity|]. cbn. split; [lia|]. by split. }
  unfold dispatch. rewrite (bool_decide_eq_true_2 (SIGHUP = SIGHUP)) by done.
  destruct (fork_once os iter g) as [Hdone Hfresh].
  destruct (runningServersForked g) eqn:Hf.
  - rewrite Hdone by done. eexists _, _, _. split; [reflexivity|].
    rewrite !spawned_app, !spawned_hooks. cbn.
    destruct (heap g !! p); rewrite ?spawned_hooks; cbn; repeat split; (done || lia).
  - destruct Hfresh as [Hset Hone]; [done|].
    destruct (fork os iter g) as [[g' evs] res]. cbn in Hset, Hone.
    destruct res as [[err|]|]; eexists _, _, _; (split; [reflexivity|]);
      rewrite ?spawned_app, ?spawned_hooks; cbn;
      rewrite ?spawned_app; cbn; rewrite ?app_nil_r;
      try (destruct (heap g' !! p); rewrite ?spawned_hooks, ?app_nil_r);
      repeat split; try done.
Qed.

Lemma deliver_HUPs_once (os : OS) (ds : list (ptr * list (string * ptr))) (g : process) :
  (length (spawned (deliver_HUPs os ds g).2) <= 1)%nat /\
  (runningServersForked g = true ->
   runningServersForked (deliver_HUPs os ds g).1 = true /\
   spawned (deliver_HUPs os ds g).2 = []).
Proof.
  revert g. induction ds as [|[p iter] ds IH]; intros g; cbn [deliver_HUPs].
  - cbn. split; [lia|done].
  - destruct (handleSignal_HUP os iter p g)
      as (g1 & evs1 & panics & -> & Hone & Hkept & Hset).
    destruct (IH g1) as [Hrest Hkept'].
    destruct (deliver_HUPs os ds g1) as [g2 evs2]. cbn [fst snd] in *.
    rewrite spawned_app, length_app. split.
    + destruct (spawned evs1) as [|c cs] eqn:Hs1; [cbn; lia|].
      destruct Hkept' as [_ ->]; [by apply Hset|]. cbn in *. lia.
    + intros Hf. destruct (Hkept Hf) as [Hf1 ->].
      destruct (Hkept' Hf1) as [Hf2 ->]. done.
Qed.

Lemma Legacy_fork_once (os : OS) (iter : list (string * ptr)) (g : Legacy.process) :
  (Legacy.runningServersForked g = true -> Legacy.fork os iter g = (g, [], Ret None)) /\
  (Legacy.runningServersForked g = false ->
   Legacy.runningServersForked (Legacy.fork os iter g).1.1 = true /\
   (length (spawned (Legacy.fork os iter g).1.2) <= 1)%nat).
Proof.
  unfold Legacy.fork. split; intros ->; [done|].
  destruct (Legacy.fork_loop _ _ _ _) as [files|]; [|cbn; split; [done|lia]].
  destruct (os_start os _); cbn; (split; [done|unfold spawned; simpl; lia]).
Qed.

Lemma Legacy_fork_calls_once (os : OS) (iters : list (list (string * ptr)))
  (g : Legacy.process) :
  (length (spawned (Legacy.fork_calls os iters g).2) <= 1)%nat /\
  (Legacy.runningServersForked g = true ->
   spawned (Legacy.fork_calls os iters g).2 = []).
Proof.
  revert g. induction iters as [|iter iters IH]; intros g; cbn [Legacy.fork_calls].
  - cbn. split; [lia|done].
  - destruct (Legacy_fork_once os iter g) as [Hdone Hfresh].
    destruct (Legacy.runningServersForked g) eqn:Hf.
    + rewrite Hdone by done. destruct (IH g) as [Hrest Hkept].
      destruct (Legacy.fork_calls os iters g) as [g2 evs2]. cbn [fst snd app] in *.
      split; [done|]. intros _. by apply Hkept.
    + destruct Hfresh as [Hset Hone]; [done|].
      destruct (Legacy.fork os iter g) as [[g1 evs1] res]. cbn [fst snd] in *.
      destruct (IH g1) as [_ Hkept].
      destruct (Legacy.fork_calls os iters g1) as [g2 evs2]. cbn [fst snd] in *.
      rewrite spawned_app, length_app, (Hkept Hset). cbn. split; [lia|done].
Qed.

(** The earlier revision lowers the counter on every [Close], whatever
    the wrapped close answers. *)
Lemma Legacy_Close_always_decrements (err : option string) (srv : Legacy.endlessServer) :
  Legacy.wg (Legacy.endlessConn_Close err srv).1 = Legacy.wg srv - 1.
Proof. unfold Legacy.endlessConn_Close, wg_Done, wg_Add. cbn. lia. Qed.

(** C2, as the code has it: however many SIGHUPs the signal loops
    receive, at most one child is started.  [fork] with the flag set
    spawns nothing and leaves the process as it is; in the current
    revision it returns the "already forked" error, in the earlier
    revision ([endless.go]) it returns with a nil error.  With the flag
    clear it sets the flag (also when it then panics or the spawn fails)
    and starts at most one child; nothing clears the flag. *)
Theorem at_most_one_fork
  (os : OS) (ds : list (ptr * list (string * ptr))) (g : process)
  (iters : list (list (string * ptr))) (lg : Legacy.process) :
  (length (spawned (deliver_HUPs os ds g).2) <= 1)%nat /\
  (runningServersForked g = true ->
   runningServersForked (deliver_HUPs os ds g).1 = true /\
   spawned (deliver_HUPs os ds g).2 = []) /\
  (forall iter, runningServersForked g = true ->
     fork os iter g = (g, [], Ret (Some already_forked))) /\
  (forall iter, runningServersForked g = false ->
     runningServersForked (fork os iter g).1.1 = true /\
     (length (spawned (fork os iter g).1.2) <= 1)%nat) /\
  (length (spawned (Legacy.fork_calls os iters lg).2) <= 1)%nat /\
  (forall iter, Legacy.runningServersForked lg = true ->
     Legacy.fork os iter lg = (lg, [], Ret None)) /\
  (forall iter, Legacy.runningServersForked lg = false ->
     Legacy.runningServersForked (Legacy.fork os iter lg).1.1 = true /\
     (length (spawned (Legacy.fork os iter lg).1.2) <= 1)%nat).
Proof.
  destruct (deliver_HUPs_once os ds g) as [Hone Hkept].
  split; [done|]. split; [done|]. split; [intros iter; apply fork_once|].
  split; [intros iter; apply fork_once|].
  split; [apply Legacy_fork_calls_once|].
  split; intros iter; apply Legacy_fork_once.
Qed.

(** C2, as stated, fails on the earlier revision: [fork] called with the
    flag already set returns no error. *)
Lemma Legacy_fork_again_returns_nil :
  let g := {| Legacy.runningServers := {[ ":8080"%string := 0%nat ]};
              Legacy.runningServersOrder := {[ 0 := ":8080"%string ]};
              Legacy.runningServersForked := true;
              Legacy.heap := [ {| Legacy.Addr := ":8080";
                                  Legacy.EndlessListener :=
                                    ListenerEndless (newEndlessListener 105);
                                  Legacy.tlsInnerListener := None;
                                  Legacy.wg := 0;
                                  Legacy.isChild := false |} ] |} in
  Legacy.fork parent_os [(":8080"%string, 0%nat)] g = (g, [], Ret None) /\
  Legacy.fork parent_os [(":8080"%string, 0%nat)] g
    <> (g, [], Ret (Some already_forked)).
Proof. intros g. split; [reflexivity|]. intros H. discriminate H. Qed.

(* ===================================================================== *)
(** * Descriptor slots in the child                                        *)
(* ===================================================================== *)

Lemma assign_offsets_notin (A : string) (addrs : list string) (i0 : Z)
  (m : gmap string Z) :
  A ∉ addrs -> assign_offsets i0 addrs m !! A = m !! A.
Proof.
  revert i0 m. induction addrs as [|a addrs IH]; intros i0 m Hnotin; [done|].
  apply not_elem_of_cons in Hnotin as [Hne Hnotin]. cbn.
  rewrite IH by done. by rewrite lookup_insert_ne.
Qed.

(** The loop leaves an address at the index of its last occurrence. *)
Lemma assign_offsets_last (addrs : list string) (i0 : Z) (m : gmap string Z)
  (A : string) (i : nat) :
  addrs !! i = Some A -> A ∉ drop (S i) addrs ->
  assign_offsets i0 addrs m !! A = Some (i0 + Z.of_nat i).
Proof.
  revert i0 m i. induction addrs as [|a addrs IH]; intros i0 m i Hi Hlast; [done|].
  destruct i as [|i]; cbn in *.
  - injection Hi as ->. rewrite drop_0 in Hlast.
    rewrite assign_offsets_notin by done.
    rewrite lookup_insert_eq. f_equal. lia.
  - rewrite (IH _ _ i) by done. f_equal. lia.
Qed.

Lemma NewServer_offsets (os : OS) (addr : string) (g : process) :
  socketPtrOffsetMap (NewServer os addr g).2 =
    if bool_decide (len (Getenv os "ENDLESS_SOCKET_ORDER") > 0)
    then assign_offsets 0 (Split (Getenv os "ENDLESS_SOCKET_ORDER") comma)
           (socketPtrOffsetMap g)
    else <[addr := Z.of_nat (length (runningServersOrder g))]> (socketPtrOffsetMap g).
Proof. done. Qed.


Lemma register_all_heap (os : OS) (more : list string) (g : process)
  (p : ptr) (srv : endlessServer) :
  heap g !! p = Some srv -> heap (register_all os more g) !! p = Some srv.
Proof.
  unfold register_all. revert g.
  induction more as [|a more IH]; intros g Hp; [done|].
  cbn [foldl]. apply IH. cbn. by apply lookup_app_l_Some.
Qed.

Lemma ptrOffset_lookup (g : process) (laddr : string) (off : Z) :
  socketPtrOffsetMap g !! laddr = Some off -> ptrOffset g laddr = off.
Proof.
  intros Hl. unfold ptrOffset, map_index. rewrite Hl. cbn.
  case_bool_decide as Hsize; [done|].
  assert (Hne : size (socketPtrOffsetMap g) <> 0%nat)
    by (eapply map_size_ne_0_lookup_2; by eexists).
  lia.
Qed.

Lemma ptrOffset_missing (g : process) (laddr : string) :
  socketPtrOffsetMap g !! laddr = None -> ptrOffset g laddr = 0.
Proof.
  intros Hl. unfold ptrOffset, map_index. rewrite Hl. cbn. by case_bool_decide.
Qed.




Lemma register_all_not_listed (os : OS) (addrs : list string) (g : process)
  (laddr : string) :
  len (Getenv os "ENDLESS_SOCKET_ORDER") > 0 ->
  laddr ∉ Split (Getenv os "ENDLESS_SOCKET_ORDER") comma ->
  socketPtrOffsetMap g !! laddr = None ->
  socketPtrOffsetMap (register_all os addrs g) !! laddr = None.
Proof.
  intros Hlen Hnot. unfold register_all. revert g.
  induction addrs as [|a addrs IH]; intros g Hg; [done|].
  cbn [foldl]. apply IH. rewrite NewServer_offsets.
  rewrite bool_decide_eq_true_2 by done.
  by rewrite assign_offsets_notin.
Qed.

(** C10: in a child server, [getListener] for an address the offset map
    does not hold asks for descriptor 3, as it does for the address at
    offset 0, and with the same result: it succeeds whenever descriptor 3
    can be opened.  An address that the socket order does not list is
    such an address, whatever servers a fresh child registers. *)
Theorem missing_address_opens_fd3
  (os : OS) (g : process) (srv : endlessServer) (laddr : string)
  (Hchild : isChild srv = true)
  (Hmissing : socketPtrOffsetMap g !! laddr = None) :
  getListener_request srv g laddr = FromFile 3 /\
  (forall l, os_open os (FromFile 3) = inl l -> getListener os srv g laddr = inl l) /\
  (forall first, socketPtrOffsetMap g !! first = Some 0 ->
     getListener_request srv g first = FromFile 3 /\
     getListener os srv g laddr = getListener os srv g first) /\
  (forall os' addrs a,
     len (Getenv os' "ENDLESS_SOCKET_ORDER") > 0 ->
     a ∉ Split (Getenv os' "ENDLESS_SOCKET_ORDER") comma ->
     socketPtrOffsetMap (register_all os' addrs init) !! a = None).
Proof.
  assert (Hreq : getListener_request srv g laddr = FromFile 3).
  { unfold getListener_request. by rewrite Hchild, ptrOffset_missing. }
  split; [done|]. split; [|split].
  - intros l Hl. unfold getListener. by rewrite Hreq, Hl.
  - intros first Hfirst.
    assert (Hreq' : getListener_request srv g first = FromFile 3).
    { unfold getListener_request. by rewrite Hchild, (ptrOffset_lookup _ _ 0). }
    split; [done|]. unfold getListener. by rewrite Hreq, Hreq'.
  - intros os' addrs a Hlen Hnot. by apply register_all_not_listed.
Qed.

Lemma missing_address_opens_fd3_witness :
  let os := child_os "a:80,b:81" 4242 in
  let g := register_all os ["a:80"; "b:81"; "z:99"]%string init in
  let srv := new_endlessServer "z:99" true init in
  socketPtrOffsetMap g !! "z:99"%string = None /\
  getListener_request srv g "z:99" = FromFile 3 /\
  getListener os srv g "z:99" = inl 3 /\
  getListener os srv g "z:99" = getListener os srv g "a:80".
Proof.
  intros os g srv.
  assert (Hmissing : socketPtrOffsetMap g !! "z:99"%string = None) by reflexivity.
  destruct (missing_address_opens_fd3 os g srv "z:99" eq_refl Hmissing)
    as (Hreq & Hok & Hfirst & _).
  split; [exact Hmissing|]. split; [exact Hreq|]. split.
  - by apply Hok.
  - by apply Hfirst.
Defined.

(* ===================================================================== *)
(** * The socket order: from the parent's fork to the child                *)
(* ===================================================================== *)

Lemma assign_offsets_app (l1 l2 : list string) (i0 : Z) (m : gmap string Z) :
  assign_offsets i0 (l1 ++ l2) m =
    assign_offsets (i0 + Z.of_nat (length l1)) l2 (assign_offsets i0 l1 m).
Proof.
  revert i0 m. induction l1 as [|a l1 IH]; intros i0 m; cbn [app assign_offsets length].
  - f_equal. lia.
  - rewrite IH. f_equal. lia.
Qed.

Lemma NoDup_last_occurrence (l : list string) (i : nat) (a : string) :
  NoDup l -> l !! i = Some a -> a ∉ drop (S i) l.
Proof.
  intros Hnd Hi Hin. apply list_elem_of_lookup in Hin as [j Hj].
  rewrite lookup_drop in Hj.
  pose proof (NoDup_lookup _ _ _ _ Hnd Hi Hj). lia.
Qed.

Lemma assign_offsets_NoDup (addrs : list string) (i : nat) (a : string) :
  NoDup addrs -> addrs !! i = Some a ->
  assign_offsets 0 addrs ∅ !! a = Some (Z.of_nat i).
Proof.
  intros Hnd Hi.
  rewrite (assign_offsets_last _ _ _ a i); [f_equal; lia|done|].
  by apply NoDup_last_occurrence.
Qed.

(** Running the loop again over the same order changes nothing. *)
Lemma assign_offsets_again (addrs : list string) (m : gmap string Z) :
  NoDup addrs ->
  assign_offsets 0 addrs (assign_offsets 0 addrs m) = assign_offsets 0 addrs m.
Proof.
  intros Hnd. apply map_eq. intros k.
  destruct (decide (k ∈ addrs)) as [Hin|Hout].
  - apply list_elem_of_lookup in Hin as [i Hi].
    pose proof (NoDup_last_occurrence _ _ _ Hnd Hi) as Hlast.
    by rewrite !(assign_offsets_last _ _ _ k i).
  - by rewrite (assign_offsets_notin k addrs 0 (assign_offsets 0 addrs m)).
Qed.

Section Parent.
Variable os : OS.
Hypothesis Hfresh : Getenv os "ENDLESS_SOCKET_ORDER" = EmptyString.
Hypothesis Hparent : Getenv os "ENDLESS_CONTINUE" = EmptyString.
Hypothesis Hlisten : forall a, exists l, os_open os (Listen a) = inl l.

(** What the package-level [ListenAndServe] leaves behind when the
    listen succeeds. *)
Lemma pkg_ListenAndServe_parent (a : string) (g : process) :
  exists l,
    (pkg_ListenAndServe os a g).1.1 =
      {| runningServers := <[a := length (heap g)]> (runningServers g);
         runningServersOrder := runningServersOrder g ++ [a];
         socketPtrOffsetMap :=
           <[a := Z.of_nat (length (runningServersOrder g))]> (socketPtrOffsetMap g);
         runningServersForked := runningServersForked g;
         DefaultReadTimeOut := DefaultReadTimeOut g;
         DefaultWriteTimeOut := DefaultWriteTimeOut g;
         DefaultMaxHeaderBytes := DefaultMaxHeaderBytes g;
         DefaultHammerTime := DefaultHammerTime g;
         g_isChild := false;
         socketOrder := EmptyString;
         heap := heap g ++ [set_EndlessListener (ListenerEndless (newEndlessListener l))
                              (new_endlessServer a false g)] |}.
Proof.
  unfold pkg_ListenAndServe, NewServer. rewrite Hfresh, Hparent.
  assert (Hz : bool_decide (len EmptyString > 0) = false) by done.
  rewrite Hz. rewrite bool_decide_eq_true_2 by done. cbn [negb heap].
  rewrite list_lookup_middle by done.
  unfold ListenAndServe, getListener, getListener_request.
  cbn [isChild new_endlessServer Addr].
  match goal with |- context [os_open os (Listen ?x)] =>
    destruct (Hlisten x) as [l ->] end.
  exists l. cbn [fst snd]. unfold set_heap. cbn.
  f_equal. rewrite insert_app_r_alt by done.
  by rewrite Nat.sub_diag.
Qed.

Lemma serving_registry_step (a : string) (addrs : list string) (g : process) :
  serving_registry addrs g -> a ∉ addrs ->
  serving_registry (addrs ++ [a]) (pkg_ListenAndServe os a g).1.1.
Proof.
  intros (Hoff & Hord & Hfork & Hdom & Hsize & Hheap) Hnew.
  destruct (pkg_ListenAndServe_parent a g) as [l ->].
  assert (Hnone : runningServers g !! a = None).
  { apply eq_None_not_Some. by rewrite <-Hdom. }
  unfold serving_registry; cbn.
  split; [|split; [|split; [done|split; [|split]]]].
  - rewrite assign_offsets_app, <-Hoff, Hord. cbn. by rewrite Z.add_0_l.
  - by rewrite Hord.
  - intros a'. rewrite elem_of_app, list_elem_of_singleton, Hdom.
    rewrite lookup_insert_is_Some'.
    split; (intros [H|H]; [right|left]); done.
  - rewrite map_size_insert_None by done. rewrite length_app, Hsize. cbn. lia.
  - intros a' p. destruct (decide (a' = a)) as [->|Hne].
    + rewrite lookup_insert_eq. intros [= <-].
      eexists _, _. split; [by apply list_lookup_middle|]. done.
    + rewrite lookup_insert_ne by done. intros Hp.
      destruct (Hheap _ _ Hp) as (srv & el & Hsrv & Haddr & Hl).
      exists srv, el. split; [by apply lookup_app_l_Some|done].
Qed.

Lemma start_all_serving (addrs : list string) :
  NoDup addrs -> serving_registry addrs (start_all os addrs init).
Proof.
  induction addrs as [|a addrs IH] using rev_ind; intros Hnd.
  - unfold serving_registry; cbn. repeat split; try done.
    + intros Hin. by apply elem_of_nil in Hin.
    + intros [p Hp]. by rewrite lookup_empty in Hp.
  - apply NoDup_app in Hnd as (Hnd & Hdisj & _).
    unfold start_all. rewrite foldl_snoc.
    apply serving_registry_step; [by apply IH|].
    intros Hin. apply (Hdisj _ Hin). apply list_elem_of_here.
Qed.
End Parent.

(** The loop of [fork] over a serving registry, in whatever order the
    registry is visited: every visited address ends up in the slot of its
    position, the other slots are left alone. *)
Lemma fork_loop_fills (os : OS) (addrs : list string) (g : process) :
  NoDup addrs ->
  socketPtrOffsetMap g = assign_offsets 0 addrs ∅ ->
  (forall a, is_Some (runningServers g !! a) -> a ∈ addrs) ->
  (forall a p, runningServers g !! a = Some p ->
     exists srv el, heap g !! p = Some srv /\ Addr srv = a /\
                    EndlessListener srv = ListenerEndless el) ->
  forall (iter : list (string * ptr)) (files : list (option File)) (oa : list string),
    length files = length addrs -> length oa = length addrs ->
    (forall a p, (a, p) ∈ iter -> runningServers g !! a = Some p) ->
    exists files' oa',
      fork_loop os g iter files oa = Some (files', oa') /\
      length files' = length addrs /\ length oa' = length addrs /\
      forall i a, addrs !! i = Some a ->
        oa' !! i = if decide (a ∈ iter.*1) then Some a else oa !! i.
Proof.
  intros Hnd Hoff Hdom Hheap iter.
  induction iter as [|[a0 p0] rest IH]; intros files oa Hfiles Hoa Hreg.
  - exists files, oa. split; [done|]. split; [done|]. split; [done|].
    intros i a _. rewrite decide_False; [done|]. cbn. apply not_elem_of_nil.
  - assert (Hp0 : runningServers g !! a0 = Some p0)
      by (apply Hreg, list_elem_of_here).
    destruct (Hheap _ _ Hp0) as (srv & el & Hsrv & Haddr & Hl).
    assert (Hin0 : a0 ∈ addrs) by (apply Hdom; by eexists).
    apply list_elem_of_lookup in Hin0 as [i0 Hi0].
    assert (Hslot : map_index (socketPtrOffsetMap g) (Addr srv) = Z.of_nat i0).
    { unfold map_index. by rewrite Hoff, Haddr, (assign_offsets_NoDup _ i0). }
    pose proof (lookup_lt_Some _ _ _ Hi0) as Hlt.
    destruct (IH (<[i0 := endlessListener_File os el]> files) (<[i0 := a0]> oa))
      as (files' & oa' & Hloop & Hfiles' & Hoa' & Hslots).
    { by rewrite length_insert. }
    { by rewrite length_insert. }
    { intros a p Hin. apply Hreg. by apply list_elem_of_further. }
    exists files', oa'. cbn [fork_loop]. rewrite Hsrv, Hl, Hslot, Haddr.
    rewrite bool_decide_eq_true_2 by lia. rewrite Nat2Z.id.
    split; [done|]. split; [done|]. split; [done|].
    intros i a Hi. rewrite (Hslots i a Hi). cbn [fmap list_fmap fst].
    destruct (decide (a ∈ rest.*1)) as [Hrest|Hrest].
    + rewrite decide_True; [done|]. by apply list_elem_of_further.
    + destruct (decide (a = a0)) as [->|Hne].
      * rewrite decide_True by apply list_elem_of_here.
        rewrite (NoDup_lookup _ _ _ _ Hnd Hi Hi0).
        apply list_lookup_insert_eq. lia.
      * rewrite decide_False.
        -- apply list_lookup_insert_ne. intros ->. congruence.
        -- intros Hin. apply elem_of_cons in Hin as [?|?]; done.
Qed.

(** A fresh child decodes the order once per registration, always to the
    same map. *)
Lemma child_offsets (os' : OS) (addrs more : list string) :
  len (Getenv os' "ENDLESS_SOCKET_ORDER") > 0 ->
  Split (Getenv os' "ENDLESS_SOCKET_ORDER") comma = addrs ->
  NoDup addrs -> more <> [] ->
  socketPtrOffsetMap (register_all os' more init) = assign_offsets 0 addrs ∅.
Proof.
  intros Hlen Hsplit Hnd Hmore.
  assert (Hstep : forall a g, socketPtrOffsetMap (NewServer os' a g).2
                              = assign_offsets 0 addrs (socketPtrOffsetMap g)).
  { intros a g. rewrite NewServer_offsets, Hsplit.
    by rewrite bool_decide_eq_true_2. }
  destruct more as [|a more]; [done|]. unfold register_all. cbn [foldl].
  assert (Hfirst : socketPtrOffsetMap (NewServer os' a init).2
                   = assign_offsets 0 addrs ∅) by apply Hstep.
  revert Hfirst. generalize (NewServer os' a init).2. clear a Hmore.
  induction more as [|a more IH]; intros g Hg; [done|].
  cbn [foldl]. apply IH. rewrite Hstep, Hg. by apply assign_offsets_again.
Qed.

(** C4, as the code has it: a first-generation parent starts servers on
    the distinct addresses [addrs], more than one and none containing a
    comma.  Each address has its position as offset; [fork], in whatever
    order it visits the registry, starts one child whose environment is
    the parent's followed by [ENDLESS_CONTINUE=1] and
    [ENDLESS_SOCKET_ORDER=a1,...,an]; splitting that value gives [addrs]
    back, and a fresh child that reads it has, after any registrations,
    the offset map of the parent. *)
Theorem socket_order_round_trip
  (os : OS) (addrs : list string) (iter : list (string * ptr))
  (Hfresh : Getenv os "ENDLESS_SOCKET_ORDER" = EmptyString)
  (Hparent : Getenv os "ENDLESS_CONTINUE" = EmptyString)
  (Hlisten : forall a, exists l, os_open os (Listen a) = inl l)
  (Hnd : NoDup addrs)
  (Hmany : (1 < length addrs)%nat)
  (Hcomma : Forall (fun a => contains_byte comma a = false) addrs)
  (Hiter : iter ≡ₚ map_to_list (runningServers (start_all os addrs init))) :
  let parent := start_all os addrs init in
  (forall i a, addrs !! i = Some a ->
     socketPtrOffsetMap parent !! a = Some (Z.of_nat i)) /\
  (exists cmd,
     spawned (fork os iter parent).1.2 = [cmd] /\
     cmd_Env cmd = Environ os ++ ["ENDLESS_CONTINUE=1"%string;
                                  "ENDLESS_SOCKET_ORDER=" +:+ Join addrs comma]) /\
  Split (Join addrs comma) comma = addrs /\
  (forall os' more,
     Getenv os' "ENDLESS_SOCKET_ORDER" = Join addrs comma -> more <> [] ->
     socketPtrOffsetMap (register_all os' more init) = socketPtrOffsetMap parent).
Proof.
  intros parent.
  destruct (start_all_serving os Hfresh Hparent Hlisten addrs Hnd)
    as (Hoff & Hord & Hfork & Hdom & Hsize & Hheap).
  fold parent in Hoff, Hord, Hfork, Hdom, Hsize, Hheap, Hiter.
  assert (Hne : addrs <> []) by (intros ->; cbn in Hmany; lia).
  assert (Hsplit : Split (Join addrs comma) comma = addrs) by by apply Split_Join.
  split; [|split; [|split; [done|]]].
  - intros i a Hi. rewrite Hoff. by apply assign_offsets_NoDup.
  - unfold fork. rewrite Hfork, Hsize.
    destruct (fork_loop_fills os addrs (set_forked true parent) Hnd Hoff
                (fun a Ha => proj2 (Hdom a) Ha) Hheap iter
                (replicate (length addrs) None)
                (replicate (length addrs) EmptyString))
      as (files & oa & -> & Hfiles & Hoa & Hslots).
    { apply length_replicate. }
    { apply length_replicate. }
    { intros a p Hin. apply elem_of_map_to_list. by rewrite <-Hiter. }
    assert (oa = addrs) as ->.
    { apply list_eq. intros i. destruct (addrs !! i) as [a|] eqn:Hi.
      - rewrite (Hslots i a Hi). rewrite decide_True; [done|].
        destruct (proj1 (Hdom a)) as [p Hp]; [by eapply list_elem_of_lookup_2|].
        apply list_elem_of_fmap. exists (a, p). split; [done|].
        rewrite Hiter. by apply elem_of_map_to_list.
      - apply lookup_ge_None in Hi. apply lookup_ge_None. lia. }
    rewrite bool_decide_eq_true_2 by lia.
    destruct (os_start os _); eexists; (split; [reflexivity|done]).
  - intros os' more Henv Hmore. rewrite Hoff.
    apply child_offsets; try done.
    + rewrite Henv. by apply Join_len_pos.
    + by rewrite Henv.
Qed.

Lemma socket_order_round_trip_witness :
  let addrs := ["a:80"; "b:81"; "c:82"]%string in
  let parent := start_all parent_os addrs init in
  let iter := reverse (map_to_list (runningServers parent)) in
  (exists cmd,
     spawned (fork parent_os iter parent).1.2 = [cmd] /\
     last (cmd_Env cmd) = Some "ENDLESS_SOCKET_ORDER=a:80,b:81,c:82"%string) /\
  socketPtrOffsetMap
    (register_all (child_os "a:80,b:81,c:82" 4242) ["c:82"; "a:80"]%string init)
  = socketPtrOffsetMap parent.
Proof.
  intros addrs parent iter.
  assert (Hlisten : forall a, exists l, os_open parent_os (Listen a) = inl l)
    by (intros a; by eexists).
  assert (Hnd : NoDup addrs) by (apply (bool_decide_unpack _); by vm_compute).
  assert (Hmany : (1 < length addrs)%nat) by (cbn; lia).
  assert (Hcomma : Forall (fun a => contains_byte comma a = false) addrs)
    by (repeat constructor).
  assert (Hiter : iter ≡ₚ map_to_list (runningServers (start_all parent_os addrs init)))
    by apply reverse_Permutation.
  destruct (socket_order_round_trip parent_os addrs iter eq_refl eq_refl
              Hlisten Hnd Hmany Hcomma Hiter) as (_ & (cmd & Hcmd & Henv) & _ & Hchild).
  split.
  - exists cmd. split; [exact Hcmd|]. rewrite Henv. reflexivity.
  - apply Hchild; done.
Defined.

(** C4, as stated, fails for an address that contains a comma: the
    parent has ["a,b:80"] at offset 0 and ["c:81"] at offset 1 and passes
    [a,b:80,c:81]; the child splits it into three pieces and puts
    ["c:81"] at offset 2. *)
Lemma comma_in_address_breaks_round_trip :
  let addrs := ["a,b:80"; "c:81"]%string in
  let parent := start_all parent_os addrs init in
  let child := register_all (child_os "a,b:80,c:81" 4242) addrs init in
  (exists cmd,
     spawned (fork parent_os (map_to_list (runningServers parent)) parent).1.2 = [cmd] /\
     last (cmd_Env cmd) = Some "ENDLESS_SOCKET_ORDER=a,b:80,c:81"%string) /\
  socketPtrOffsetMap parent !! "c:81"%string = Some 1 /\
  socketPtrOffsetMap child !! "c:81"%string = Some 2 /\
  socketPtrOffsetMap child <> socketPtrOffsetMap parent.
Proof.
  intros addrs parent child.
  assert (Hp : socketPtrOffsetMap parent !! "c:81"%string = Some 1) by reflexivity.
  assert (Hc : socketPtrOffsetMap child !! "c:81"%string = Some 2) by reflexivity.
  split; [eexists; split; reflexivity|]. split; [done|]. split; [done|].
  intros Heq. rewrite Heq, Hp in Hc. discriminate Hc.
Qed.

(* ===================================================================== *)
(** * Further properties of the tracking listener and the counter          *)
(* ===================================================================== *)

Lemma Close_listener_calls_stopped (os : OS) (n : nat) (el : endlessListener) :
  stopped el = true ->
  Close_listener_calls os n el = (el, replicate n (Some EINVAL), []).
Proof.
  intros Hs. induction n as [|n IH]; [done|].
  cbn [Close_listener_calls]. unfold endlessListener_Close.
  rewrite Hs, IH. done.
Qed.

(** X1: however often [Close] is called on a tracking listener, the
    listener under it is closed once, by the first call, which returns
    what that close returned; every later call returns EINVAL and closes
    nothing.  On a listener that is already stopped every call returns
    EINVAL. *)
Theorem listener_closed_once (os : OS) (n : nat) (el : endlessListener) :
  (stopped el = false ->
   Close_listener_calls os (S n) el =
     ({| el_socket := el_socket el; stopped := true |},
      os_close os (el_socket el) :: replicate n (Some EINVAL),
      [EvListenerClose (el_socket el)])) /\
  (stopped el = true ->
   Close_listener_calls os n el = (el, replicate n (Some EINVAL), [])).
Proof.
  split; intros Hs; [|by apply Close_listener_calls_stopped].
  cbn [Close_listener_calls]. unfold endlessListener_Close at 1. rewrite Hs.
  by rewrite Close_listener_calls_stopped.
Qed.

Lemma listener_closed_once_witness :
  Close_listener_calls parent_os 3 (newEndlessListener 105) =
    ({| el_socket := 105; stopped := true |},
     [None; Some EINVAL; Some EINVAL], [EvListenerClose 105]) /\
  Close_listener_calls parent_os 2 {| el_socket := 105; stopped := true |} =
    ({| el_socket := 105; stopped := true |}, [Some EINVAL; Some EINVAL], []).
Proof.
  split.
  - apply (proj1 (listener_closed_once parent_os 2 (newEndlessListener 105))).
    reflexivity.
  - apply (proj2 (listener_closed_once parent_os 2
                    {| el_socket := 105; stopped := true |})).
    reflexivity.
Defined.

Lemma run_conn_event_wg (srv : endlessServer) (e : conn_event) :
  wg (run_conn_event srv e) =
    wg srv + (if is_accepted e then 1 else 0) - (if is_closed e then 1 else 0).
Proof.
  destruct e as [[c|err]|[err|]]; cbn; lia.
Qed.

Lemma run_conn_event_rest (srv : endlessServer) (e : conn_event) :
  set_wg (wg srv) (run_conn_event srv e) = srv.
Proof. by destruct srv, e as [[c|err]|[err|]]. Qed.

(** X2: over any run of [Accept] and [Close] calls on the connections of
    a server, the counter ends at its start value plus the connections
    handed out minus the closes that succeeded; failed accepts and failed
    closes leave it alone, and nothing but the counter changes. *)
Theorem outstanding_balance (evs : list conn_event) (srv : endlessServer) :
  wg (run_conn_events evs srv) =
    wg srv + Z.of_nat (accepted evs) - Z.of_nat (closed evs) /\
  set_wg (wg srv) (run_conn_events evs srv) = srv.
Proof.
  unfold run_conn_events, accepted, closed. revert srv.
  induction evs as [|e evs IH]; intros srv.
  - cbn. split; [lia|by destruct srv].
  - cbn [foldl]. destruct (IH (run_conn_event srv e)) as [Hwg Hrest].
    rewrite Hwg, run_conn_event_wg. split.
    + destruct (is_accepted e) eqn:Ha; destruct (is_closed e) eqn:Hc;
        rewrite ?(filter_cons_True (fun e => is_accepted e = true)) by done;
        rewrite ?(filter_cons_False (fun e => is_accepted e = true)) by congruence;
        rewrite ?(filter_cons_True (fun e => is_closed e = true)) by done;
        rewrite ?(filter_cons_False (fun e => is_closed e = true)) by congruence;
        cbn [length]; lia.
    + pose proof (run_conn_event_rest srv e) as Hr.
      set (R := run_conn_event srv e) in *.
      set (X := foldl run_conn_event R evs) in *. clearbody X R.
      etrans; [|exact Hr]. rewrite <-Hrest. reflexivity.
Qed.

(* ===================================================================== *)
(** * Further properties of shutdown, the hammer and the signal loop       *)
(* ===================================================================== *)

(** X3: a second [shutdown] does nothing: whatever the server was,
    after one [shutdown] another returns at once, with no event (no
    second hammer, no second close of the listener) and the server as
    the first call left it. *)
Theorem shutdown_twice (os : OS) (g g' : process) (srv : endlessServer) :
  shutdown os g' (shutdown os g srv).1.1 = ((shutdown os g srv).1.1, [], false).
Proof.
  destruct (shutdown_state os g srv) as [_ [[Hst ->]|[_ Hst]]].
  - unfold shutdown. by rewrite bool_decide_eq_false_2.
  - unfold shutdown at 1. rewrite Hst. done.
Qed.

Lemma hammer_loop_counter (fuel : nat) (srv srv' : endlessServer) (evs : list event) :
  hammer_loop fuel srv = Some (srv', evs) ->
  srv' = set_wg (wg srv') srv /\ wg srv' <= wg srv.
Proof.
  revert srv. induction fuel as [|fuel IH]; intros srv; cbn [hammer_loop]; [done|].
  case_bool_decide.
  - intros [= <- <-]. split; [by destruct srv|lia].
  - unfold wg_Done, wg_Add. case_bool_decide.
    + intros [= <- <-]. cbn. split; [done|lia].
    + intros Hrec. destruct (IH _ Hrec) as [Heq Hle]. cbn in Hle.
      split; [|lia]. rewrite Heq at 1. done.
Qed.

(** X4: whenever [hammerTime] returns, the server differs from before in
    its counter at most, and the counter has not gone up; outside
    ShuttingDown nothing happens at all, and in ShuttingDown the hammer
    sleeps [d] before it does anything else.  Given one round more than
    connections are outstanding, it does return. *)
Theorem hammerTime_only_counter
  (fuel : nat) (d : Z) (srv srv' : endlessServer) (evs : list event)
  (Hret : hammerTime fuel d srv = Some (srv', evs)) :
  srv' = set_wg (wg srv') srv /\
  wg srv' <= wg srv /\
  (state srv <> STATE_SHUTTING_DOWN -> srv' = srv /\ evs = []) /\
  (state srv = STATE_SHUTTING_DOWN -> exists rest, evs = EvSleep d :: rest) /\
  is_Some (hammerTime (S (Z.to_nat (wg srv))) d srv).
Proof.
  split; [|split; [|split; [|split]]].
  - revert Hret. unfold hammerTime. destruct (negb _).
    + intros [= <- _]. by destruct srv.
    + destruct (hammer_loop fuel srv) as [[s e]|] eqn:Hloop; [|done].
      intros [= <- _]. by destruct (hammer_loop_counter _ _ _ _ Hloop).
  - revert Hret. unfold hammerTime. destruct (negb _).
    + intros [= <- _]. lia.
    + destruct (hammer_loop fuel srv) as [[s e]|] eqn:Hloop; [|done].
      intros [= <- _]. by destruct (hammer_loop_counter _ _ _ _ Hloop).
  - by destruct (hammerTime_keeps _ _ _ _ _ Hret) as (_ & _ & Hidle).
  - intros Hst. revert Hret. unfold hammerTime.
    rewrite bool_decide_eq_true_2 by done. cbn [negb].
    destruct (hammer_loop fuel srv) as [[s e]|]; [|done].
    intros [= _ <-]. by eexists.
  - apply hammerTime_returns.
Qed.

Lemma hammerTime_only_counter_witness :
  let srv := set_wg 2 (server_in STATE_SHUTTING_DOWN false
                         (ListenerEndless {| el_socket := 105; stopped := true |})) in
  exists srv' evs,
    hammerTime 3 (60 * Second) srv = Some (srv', evs) /\
    srv' = set_wg (wg srv') srv /\ wg srv' <= 2 /\
    exists rest, evs = EvSleep (60 * Second) :: rest.
Proof.
  intros srv.
  assert (Hret : exists srv' evs, hammerTime 3 (60 * Second) srv = Some (srv', evs))
    by (by eexists _, _).
  destruct Hret as (srv' & evs & Hret).
  destruct (hammerTime_only_counter 3 (60 * Second) srv srv' evs Hret)
    as (Heq & Hle & _ & Hsleep & _).
  exists srv', evs. split; [exact Hret|]. split; [exact Heq|]. split; [exact Hle|].
  by apply Hsleep.
Defined.

(** X5: a signal other than HUP, USR2, INT and TERM (USR1, TSTP, or one
    the loop does not know) changes nothing in the process: the round
    runs the Pre hooks, logs one line and runs the Post hooks. *)
Theorem passive_signals_change_nothing
  (fuel : nat) (os : OS) (iter : list (string * ptr)) (sig : Signal)
  (p : ptr) (g : process) (srv : endlessServer)
  (Hp : heap g !! p = Some srv)
  (Hsig : sig ∉ [SIGHUP; SIGUSR2; SIGINT; SIGTERM]) :
  exists msg,
    handleSignal fuel os iter sig p g =
      Some (g, signalHooks PRE_SIGNAL sig srv ++ [EvLog msg]
                 ++ signalHooks POST_SIGNAL sig srv, false).
Proof.
  assert (Hne : sig <> SIGHUP /\ sig <> SIGUSR2 /\ sig <> SIGINT /\ sig <> SIGTERM).
  { repeat split; intros ->; apply Hsig; repeat constructor. }
  destruct Hne as (H1 & H2 & H3 & H4).
  unfold handleSignal, dispatch. rewrite Hp.
  rewrite (bool_decide_eq_false_2 _ H1), (bool_decide_eq_false_2 _ H2),
    (bool_decide_eq_false_2 _ H3), (bool_decide_eq_false_2 _ H4).
  repeat case_bool_decide; rewrite Hp; by eexists.
Qed.

Lemma passive_signals_change_nothing_witness :
  let g := served parent_os ":8080" in
  exists srv msg,
    heap g !! 0%nat = Some srv /\
    handleSignal 0 parent_os [] SIGUSR1 0%nat g =
      Some (g, signalHooks PRE_SIGNAL SIGUSR1 srv ++ [EvLog msg]
                 ++ signalHooks POST_SIGNAL SIGUSR1 srv, false).
Proof.
  intros g.
  assert (Hsrv : exists srv, heap g !! 0%nat = Some srv) by (by eexists).
  destruct Hsrv as [srv Hp].
  destruct (passive_signals_change_nothing 0 parent_os [] SIGUSR1 0%nat g srv Hp)
    as [msg Hround].
  - intros Hin. repeat (apply elem_of_cons in Hin as [Hin|Hin]; [discriminate Hin|]).
    by apply elem_of_nil in Hin.
  - by exists srv, msg.
Defined.

Lemma fork_process (os : OS) (iter : list (string * ptr)) (g : process) :
  (fork os iter g).1.1 = g \/ (fork os iter g).1.1 = set_forked true g.
Proof.
  unfold fork. destruct (runningServersForked g); [by left|]. right.
  destruct (fork_loop _ _ _ _ _) as [[files orderArgs]|]; [|done].
  by destruct (os_start os _).
Qed.

Lemma shutdown_heap_cell (os : OS) (g : process) (p : ptr) (srv' : endlessServer)
  (q : ptr) :
  q <> p -> heap (set_heap (<[p := srv']> (heap g)) g) !! q = heap g !! q.
Proof. intros Hq. cbn. by apply list_lookup_insert_ne. Qed.

(** X6: a round of the signal loop of the server at [p] leaves every
    other server on the heap as it was, and leaves the registry, the
    registration order and the offset map as they were; only HUP can
    change the forked flag, and HUP changes no server at all. *)
Theorem handleSignal_touches_own_server
  (fuel : nat) (os : OS) (iter : list (string * ptr)) (sig : Signal)
  (p : ptr) (g g' : process) (evs : list event) (panics : bool)
  (Hround : handleSignal fuel os iter sig p g = Some (g', evs, panics)) :
  (forall q, q <> p -> heap g' !! q = heap g !! q) /\
  length (heap g') = length (heap g) /\
  runningServers g' = runningServers g /\
  runningServersOrder g' = runningServersOrder g /\
  socketPtrOffsetMap g' = socketPtrOffsetMap g /\
  (sig <> SIGHUP -> runningServersForked g' = runningServersForked g) /\
  (sig = SIGHUP -> heap g' = heap g).
Proof.
  revert Hround. unfold handleSignal.
  destruct (heap g !! p) as [srv|]; [|by intros [= <- _ _]].
  assert (Hcell : forall s,
            (forall q, q <> p ->
               heap (set_heap (<[p := s]> (heap g)) g) !! q = heap g !! q) /\
            length (heap (set_heap (<[p := s]> (heap g)) g)) = length (heap g)).
  { intros s. split; [intros q Hq; by apply shutdown_heap_cell|].
    cbn. apply length_insert. }
  destruct (dispatch fuel os iter sig p srv g) as [[[g1 evs1] b]|] eqn:Hd; [|done].
  assert (Hg1 : (forall q, q <> p -> heap g1 !! q = heap g !! q) /\
                length (heap g1) = length (heap g) /\
                runningServers g1 = runningServers g /\
                runningServersOrder g1 = runningServersOrder g /\
                socketPtrOffsetMap g1 = socketPtrOffsetMap g /\
                (sig <> SIGHUP -> runningServersForked g1 = runningServersForked g) /\
                (sig = SIGHUP -> heap g1 = heap g)).
  { revert Hd. unfold dispatch. case_bool_decide as Hhup.
    - pose proof (fork_process os iter g) as Hf.
      destruct (fork os iter g) as [[gf evf] res]. cbn [fst] in Hf.
      assert (g1 = gf -> (forall q, q <> p -> heap g1 !! q = heap g !! q) /\
                length (heap g1) = length (heap g) /\
                runningServers g1 = runningServers g /\
                runningServersOrder g1 = runningServersOrder g /\
                socketPtrOffsetMap g1 = socketPtrOffsetMap g /\
                (sig <> SIGHUP -> runningServersForked g1 = runningServersForked g) /\
                (sig = SIGHUP -> heap g1 = heap g)) as Hgoal.
      { intros ->. destruct Hf as [->| ->]; repeat split; done. }
      destruct res as [[err|]|]; intros [= <- _ _]; by apply Hgoal.
    - case_bool_decide; [intros [= <- _ _]; repeat split; done|].
      case_bool_decide.
      { destruct (hammerTime fuel (0 * Second) srv) as [[s e]|]; [|done].
        intros [= <- _ _]. destruct (Hcell s) as [Hq Hlen].
        repeat split; done. }
      case_bool_decide.
      { destruct (shutdown os g srv) as [[s e] b']. intros [= <- _ _].
        destruct (Hcell s) as [Hq Hlen]. repeat split; done. }
      case_bool_decide.
      { destruct (shutdown os g srv) as [[s e] b']. intros [= <- _ _].
        destruct (Hcell s) as [Hq Hlen]. repeat split; done. }
      case_bool_decide; intros [= <- _ _]; repeat split; done. }
  destruct b; by intros [= <- _ _].
Qed.

Lemma handleSignal_touches_own_server_witness :
  let g := start_all parent_os [":8080"; ":8443"]%string init in
  let g0 := set_heap (alter Serve_begin 0%nat (heap g)) g in
  exists g' evs srv',
    handleSignal 0 parent_os [] SIGTERM 0%nat g0 = Some (g', evs, false) /\
    heap g' !! 0%nat = Some srv' /\ state srv' = STATE_SHUTTING_DOWN /\
    heap g' !! 1%nat = heap g0 !! 1%nat /\
    runningServers g' = runningServers g0.
Proof.
  intros g g0.
  assert (Hround : exists g' evs srv',
            handleSignal 0 parent_os [] SIGTERM 0%nat g0 = Some (g', evs, false) /\
            heap g' !! 0%nat = Some srv' /\ state srv' = STATE_SHUTTING_DOWN).
  { eexists _, _, _. split; [reflexivity|]. split; reflexivity. }
  destruct Hround as (g' & evs & srv' & Hround & Hp & Hst).
  destruct (handleSignal_touches_own_server _ _ _ _ _ _ _ _ _ Hround)
    as (Hother & _ & Hreg & _).
  exists g', evs, srv'. split; [exact Hround|]. split; [exact Hp|].
  split; [exact Hst|]. split; [by apply Hother|exact Hreg].
Defined.

(* ===================================================================== *)
(** * Further properties of listener acquisition and start-up              *)
(* ===================================================================== *)

Lemma getListener_result (os : OS) (srv : endlessServer) (g : process) (laddr : string) :
  getListener os srv g laddr =
    match os_open os (getListener_request srv g laddr) with
    | inl l => inl l
    | inr e =>
        inr ((if isChild srv then "net.FileListener error: "
              else "net.Listen error: ") +:+ e)
    end.
Proof.
  unfold getListener, getListener_request. by destruct (isChild srv).
Qed.

(** X7: [getListener] succeeds exactly when the one request it makes
    succeeds, and then returns that listener.  A child asks only for its
    inherited descriptor: it never falls back to a fresh [net.Listen],
    whatever a fresh listen would answer; a parent never opens a
    descriptor. *)
Theorem getListener_no_fallback
  (os os' : OS) (srv : endlessServer) (g : process) (laddr : string) :
  (forall l, getListener os srv g laddr = inl l <->
             os_open os (getListener_request srv g laddr) = inl l) /\
  (isChild srv = true ->
   (forall fd, os_open os (FromFile fd) = os_open os' (FromFile fd)) ->
   getListener os srv g laddr = getListener os' srv g laddr) /\
  (isChild srv = false ->
   (forall a, os_open os (Listen a) = os_open os' (Listen a)) ->
   getListener os srv g laddr = getListener os' srv g laddr).
Proof.
  split; [|split].
  - intros l. rewrite getListener_result.
    destruct (os_open os _) as [l'|e]; split; intros [= ->]; done.
  - intros Hc Hsame. rewrite !getListener_result.
    unfold getListener_request. by rewrite Hc, Hsame.
  - intros Hc Hsame. rewrite !getListener_result.
    unfold getListener_request. by rewrite Hc, Hsame.
Qed.

Lemma getListener_no_fallback_witness :
  let refusing := {| Getenv := Getenv (child_os EmptyString 1);
                     Environ := []; Args0 := "/srv/app"; Args1 := [];
                     Getppid := 1;
                     os_open := fun req =>
                       match req with
                       | FromFile fd => inr "bad file descriptor"%string
                       | Listen a => inl 7
                       end;
                     os_close := fun _ => None; os_dup := fun f => Some f;
                     os_start := fun _ => None |} in
  let failing := {| Getenv := Getenv refusing;
                    Environ := []; Args0 := "/srv/app"; Args1 := [];
                    Getppid := 1;
                    os_open := fun _ => inr "bad file descriptor"%string;
                    os_close := fun _ => None; os_dup := fun f => Some f;
                    os_start := fun _ => None |} in
  let srv := server_in STATE_INIT true ListenerNil in
  getListener refusing srv init ":8080" = getListener failing srv init ":8080" /\
  getListener refusing srv init ":8080"
    = inr "net.FileListener error: bad file descriptor"%string.
Proof.
  intros refusing failing srv. split; [|reflexivity].
  apply (proj1 (proj2 (getListener_no_fallback refusing failing srv init ":8080")));
    reflexivity.
Defined.

(** X8: when the listener cannot be acquired, [ListenAndServe] and
    [ListenAndServeTLS] return the wrapped error with the server exactly
    as it was: the signal loop has been started and the error logged,
    but no SIGTERM is sent, [BeforeBegin] is not called and [Serve] is
    not entered.  When the key pair does not load, [ListenAndServeTLS]
    returns that error before doing anything. *)
Theorem setup_error_leaves_server
  (os : OS) (g : process) (srv : endlessServer) (e : string) :
  (os_open os (getListener_request srv g (listen_address ":http" srv)) = inr e ->
   exists err,
     getListener os srv g (listen_address ":http" srv) = inr err /\
     ListenAndServe os g srv = (srv, [EvGoHandleSignals; EvLog err], Some err)) /\
  (os_open os (getListener_request srv g (listen_address ":https" srv)) = inr e ->
   exists err,
     getListener os srv g (listen_address ":https" srv) = inr err /\
     ListenAndServeTLS os None g srv
       = (srv, [EvGoHandleSignals; EvLog err], Some err)) /\
  ListenAndServeTLS os (Some e) g srv = (srv, [], Some e).
Proof.
  split; [|split; [|done]]; intros Hfail.
  - unfold ListenAndServe. fold (listen_address ":http" srv).
    rewrite getListener_result, Hfail. by eexists.
  - unfold ListenAndServeTLS. fold (listen_address ":https" srv).
    rewrite getListener_result, Hfail. by eexists.
Qed.

Lemma setup_error_leaves_server_witness :
  let os := {| Getenv := fun _ => EmptyString;
               Environ := []; Args0 := "/srv/app"; Args1 := [];
               Getppid := 1;
               os_open := fun _ => inr "address already in use"%string;
               os_close := fun _ => None; os_dup := fun f => Some f;
               os_start := fun _ => None |} in
  let srv := server_in STATE_INIT false ListenerNil in
  (exists err, ListenAndServe os init srv
               = (srv, [EvGoHandleSignals; EvLog err], Some err)) /\
  (exists err, ListenAndServeTLS os None init srv
               = (srv, [EvGoHandleSignals; EvLog err], Some err)).
Proof.
  intros os srv.
  destruct (setup_error_leaves_server os init srv "address already in use")
    as (Hhttp & Htls & _).
  split.
  - destruct (Hhttp eq_refl) as (err & _ & Hrun). by exists err.
  - destruct (Htls eq_refl) as (err & _ & Hrun). by exists err.
Defined.

Lemma sigterm_parent_kills (n : nat) (ppid pid : Z) (sig : Signal) :
  EvKill pid sig ∈ sigterm_parent n ppid -> pid = ppid /\ sig = SIGTERM /\ ppid <> 1.
Proof.
  induction n as [|n IH]; cbn [sigterm_parent]; [by intros ?%elem_of_nil|].
  case_bool_decide as Hone.
  - intros Hin%list_elem_of_singleton. discriminate Hin.
  - intros Hin. apply elem_of_cons in Hin as [[= -> ->]|Hin]; [done|].
    apply elem_of_cons in Hin as [Hin|Hin]; [discriminate Hin|].
    apply elem_of_cons in Hin as [Hin|Hin]; [discriminate Hin|]. by apply IH.
Qed.

(** X9: the only signal either method ever sends is SIGTERM to the
    parent process, and only a restart child that has got its listener
    sends it; [ListenAndServe] never sends it to process 1.  A server
    that is not a child, or whose listener could not be acquired, sends
    nothing. *)
Theorem sigterm_only_from_child_with_listener
  (os : OS) (cert : option string) (g : process) (srv : endlessServer)
  (pid : Z) (sig : Signal) :
  (EvKill pid sig ∈ (ListenAndServe os g srv).1.2 ->
   isChild srv = true /\ (ListenAndServe os g srv).2 = None /\
   pid = Getppid os /\ sig = SIGTERM /\ pid <> 1) /\
  (EvKill pid sig ∈ (ListenAndServeTLS os cert g srv).1.2 ->
   isChild srv = true /\ (ListenAndServeTLS os cert g srv).2 = None /\
   pid = Getppid os /\ sig = SIGTERM).
Proof.
  split.
  - unfold ListenAndServe. destruct (getListener os srv g _) as [l|err]; cbn [fst snd].
    + intros Hin. apply elem_of_app in Hin as [Hin|Hin].
      { apply list_elem_of_singleton in Hin. discriminate Hin. }
      apply elem_of_app in Hin as [Hin|Hin].
      * destruct (isChild srv); [|by apply elem_of_nil in Hin].
        destruct (sigterm_parent_kills _ _ _ _ Hin) as (-> & -> & Hne). done.
      * apply elem_of_cons in Hin as [Hin|Hin]; [discriminate Hin|].
        apply list_elem_of_singleton in Hin. discriminate Hin.
    + intros Hin. apply elem_of_cons in Hin as [Hin|Hin]; [discriminate Hin|].
      apply list_elem_of_singleton in Hin. discriminate Hin.
  - unfold ListenAndServeTLS. destruct cert as [err|]; cbn [fst snd].
    { by intros ?%elem_of_nil. }
    destruct (getListener os srv g _) as [l|err]; cbn [fst snd].
    + intros Hin. apply elem_of_app in Hin as [Hin|Hin].
      { apply list_elem_of_singleton in Hin. discriminate Hin. }
      apply elem_of_app in Hin as [Hin|Hin].
      * destruct (isChild srv); [|by apply elem_of_nil in Hin].
        apply elem_of_cons in Hin as [[= -> ->]|Hin]; [done|].
        apply list_elem_of_singleton in Hin. discriminate Hin.
      * apply elem_of_cons in Hin as [Hin|Hin]; [discriminate Hin|].
        apply list_elem_of_singleton in Hin. discriminate Hin.
    + intros Hin. apply elem_of_cons in Hin as [Hin|Hin]; [discriminate Hin|].
      apply list_elem_of_singleton in Hin. discriminate Hin.
Qed.

Lemma sigterm_only_from_child_with_listener_witness :
  let os := child_os EmptyString 4242 in
  let srv := server_in STATE_INIT true ListenerNil in
  EvKill 4242 SIGTERM ∈ (ListenAndServe os init srv).1.2 /\
  isChild srv = true /\ (ListenAndServe os init srv).2 = None.
Proof.
  intros os srv.
  assert (Hin : EvKill 4242 SIGTERM ∈ (ListenAndServe os init srv).1.2).
  { vm_compute. apply list_elem_of_further, list_elem_of_here. }
  destruct (proj1 (sigterm_only_from_child_with_listener os None init srv
                     4242 SIGTERM) Hin) as (Hc & Hres & _).
  done.
Defined.

(* ===================================================================== *)
(** * Further properties of the signal hooks                               *)
(* ===================================================================== *)

Lemma empty_hooks_lookup (sig : Signal) : default [] (empty_hooks !! sig) = [].
Proof.
  destruct (empty_hooks !! sig) as [l|] eqn:Hl; [|done]. cbn.
  unfold empty_hooks in Hl. apply elem_of_list_to_map_2 in Hl.
  apply list_elem_of_fmap in Hl as (s & [= _ ->] & _). done.
Qed.

Lemma hooks_for_new (addr : string) (child : bool) (g : process)
  (ppFlag : Z) (sig : Signal) :
  hooks_for (new_endlessServer addr child g) ppFlag sig = [].
Proof.
  unfold hooks_for. cbn [SignalHooks new_endlessServer].
  destruct (decide (ppFlag = PRE_SIGNAL)) as [->|Hpre].
  - rewrite lookup_insert_eq. cbn. apply empty_hooks_lookup.
  - rewrite lookup_insert_ne by done.
    destruct (decide (ppFlag = POST_SIGNAL)) as [->|Hpost].
    + rewrite lookup_insert_eq. cbn. apply empty_hooks_lookup.
    + rewrite lookup_insert_ne by done. by rewrite lookup_empty.
Qed.

Lemma RegisterSignalHook_hooks_for (prePost : Z) (sig : Signal) (f : Hook)
  (srv : endlessServer) (ppFlag : Z) (sg : Signal) :
  hooks_ready srv ->
  hooks_for (RegisterSignalHook prePost sig f srv).1 ppFlag sg =
    hooks_for srv ppFlag sg ++
      (if bool_decide ((prePost = PRE_SIGNAL \/ prePost = POST_SIGNAL) /\
                       sig ∈ hookableSignals /\ prePost = ppFlag /\ sig = sg)
       then [f] else []).
Proof.
  intros [Hpre Hpost]. unfold RegisterSignalHook.
  destruct (bool_decide (prePost <> PRE_SIGNAL) && bool_decide (prePost <> POST_SIGNAL))
    eqn:Hguard.
  { cbn [fst]. rewrite bool_decide_eq_false_2; [cbv iota; by rewrite app_nil_r|].
    intros [Hphase _]. apply andb_true_iff in Hguard as [H1 H2].
    apply bool_decide_eq_true in H1, H2. by destruct Hphase. }
  assert (Hphase : prePost = PRE_SIGNAL \/ prePost = POST_SIGNAL).
  { apply andb_false_iff in Hguard as [Hg|Hg]; apply bool_decide_eq_false in Hg;
      destruct (decide (prePost = PRE_SIGNAL)); destruct (decide (prePost = POST_SIGNAL));
      tauto. }
  destruct (bool_decide (sig ∈ hookableSignals)) eqn:Hsig.
  2: { apply bool_decide_eq_false in Hsig. cbn [fst].
       rewrite bool_decide_eq_false_2; [cbv iota; by rewrite app_nil_r|]. tauto. }
  apply bool_decide_eq_true in Hsig.
  assert (Hm : is_Some (SignalHooks srv !! prePost)) by (by destruct Hphase; subst).
  destruct Hm as [m Hm]. rewrite Hm. cbn [fst]. unfold hooks_for. cbn [SignalHooks set_SignalHooks].
  destruct (decide (prePost = ppFlag)) as [<-|Hpp].
  - rewrite lookup_insert_eq, Hm. cbn.
    destruct (decide (sig = sg)) as [<-|Hsg].
    + rewrite lookup_insert_eq. cbn. by rewrite bool_decide_eq_true_2.
    + rewrite lookup_insert_ne by done.
      rewrite bool_decide_eq_false_2; [cbv iota; by rewrite app_nil_r|]. tauto.
  - rewrite lookup_insert_ne by done.
    rewrite bool_decide_eq_false_2; [cbv iota; by rewrite app_nil_r|]. tauto.
Qed.

Lemma register_hooks_hooks_for (history : list (Z * Signal * Hook))
  (srv : endlessServer) (ppFlag : Z) (sig : Signal) :
  hooks_ready srv ->
  hooks_for (register_hooks history srv) ppFlag sig =
    hooks_for srv ppFlag sig ++
      (if bool_decide ((ppFlag = PRE_SIGNAL \/ ppFlag = POST_SIGNAL) /\
                       sig ∈ hookableSignals)
       then registered_for ppFlag sig history else []).
Proof.
  unfold register_hooks. revert srv.
  induction history as [|[[pp sg] f] history IH]; intros srv Hready.
  - cbn. by case_bool_decide; rewrite app_nil_r.
  - cbn [foldl fst snd]. rewrite IH by (by apply hooks_ready_Register).
    rewrite RegisterSignalHook_hooks_for by done. rewrite <-app_assoc. f_equal.
    unfold registered_for. cbn [omap list_omap fst snd].
    destruct (decide (pp = ppFlag /\ sg = sig)) as [[-> ->]|Hne].
    + rewrite (bool_decide_eq_true_2 (ppFlag = ppFlag /\ sig = sig)) by done.
      destruct (decide ((ppFlag = PRE_SIGNAL \/ ppFlag = POST_SIGNAL) /\
                        sig ∈ hookableSignals)) as [Hok|Hbad].
      * rewrite !bool_decide_eq_true_2 by tauto. done.
      * rewrite !bool_decide_eq_false_2 by tauto. done.
    + rewrite (bool_decide_eq_false_2 (pp = ppFlag /\ sg = sig)) by done.
      rewrite (bool_decide_eq_false_2 (_ /\ _ /\ pp = ppFlag /\ sg = sig)) by tauto.
      done.
Qed.

(** X10: on a server made by [NewServer], after any history of
    [RegisterSignalHook] calls, [signalHooks(phase, sig)] runs exactly
    the hooks that were registered for that phase and signal, in the
    order in which they were registered, when the phase is Pre or Post
    and the signal is hookable; for any other phase or signal it runs
    nothing, whatever was passed to [RegisterSignalHook]. *)
Theorem hooks_run_in_registration_order
  (addr : string) (child : bool) (g : process)
  (history : list (Z * Signal * Hook)) (ppFlag : Z) (sig : Signal) :
  signalHooks ppFlag sig (register_hooks history (new_endlessServer addr child g)) =
    if bool_decide ((ppFlag = PRE_SIGNAL \/ ppFlag = POST_SIGNAL) /\
                    sig ∈ hookableSignals)
    then EvHook <$> registered_for ppFlag sig history
    else [].
Proof.
  unfold signalHooks.
  rewrite register_hooks_hooks_for by apply hooks_ready_new.
  rewrite hooks_for_new. cbn [app]. by case_bool_decide.
Qed.

(* ===================================================================== *)
(** * Further properties of the registry                                   *)
(* ===================================================================== *)

Lemma register_all_order (os : OS) (addrs : list string) (g : process) :
  runningServersOrder (register_all os addrs g) = runningServersOrder g ++ addrs /\
  length (heap (register_all os addrs g)) = (length (heap g) + length addrs)%nat /\
  runningServersForked (register_all os addrs g) = runningServersForked g.
Proof.
  unfold register_all. revert g. induction addrs as [|b addrs IH]; intros g.
  - cbn. by rewrite app_nil_r, Nat.add_0_r.
  - cbn [foldl]. destruct (IH (NewServer os b g).2) as (-> & -> & ->).
    cbn. rewrite <-app_assoc, length_app. cbn. split; [done|]. split; [lia|done].
Qed.

Lemma register_all_keeps (os : OS) (addrs : list string) (g : process) (a : string) :
  Getenv os "ENDLESS_SOCKET_ORDER" = EmptyString ->
  a ∉ addrs ->
  runningServers (register_all os addrs g) !! a = runningServers g !! a /\
  socketPtrOffsetMap (register_all os addrs g) !! a = socketPtrOffsetMap g !! a.
Proof.
  intros Hfresh. unfold register_all. revert g.
  induction addrs as [|b addrs IH]; intros g Hnotin; [done|].
  apply not_elem_of_cons in Hnotin as [Hne Hnotin].
  cbn [foldl]. destruct (IH (NewServer os b g).2 Hnotin) as [-> ->].
  rewrite NewServer_offsets, Hfresh.
  assert (Hz : bool_decide (len EmptyString > 0) = false) by done.
  rewrite Hz. cbn [NewServer snd runningServers].
  assert (Hne' : b <> a) by congruence.
  by rewrite !lookup_insert_ne.
Qed.

(** X11: in a process without a socket order, registering the addresses
    [addrs] one after the other (an address may come more than once)
    appends them to the registration order and adds one server object
    per call; each address ends up bound to the object and to the offset
    of its last registration, and that object is the fresh one
    [NewServer] builds: timeouts and header limit from the defaults,
    state Init, counter zero, no listener.  The forked flag is not
    touched. *)
Theorem NewServer_registers
  (os : OS) (g : process) (addrs : list string) (i : nat) (a : string)
  (Hfresh : Getenv os "ENDLESS_SOCKET_ORDER" = EmptyString)
  (Hi : addrs !! i = Some a)
  (Hlast : a ∉ drop (S i) addrs) :
  let g' := register_all os addrs g in
  runningServersOrder g' = runningServersOrder g ++ addrs /\
  length (heap g') = (length (heap g) + length addrs)%nat /\
  runningServersForked g' = runningServersForked g /\
  runningServers g' !! a = Some (length (heap g) + i)%nat /\
  socketPtrOffsetMap g' !! a = Some (Z.of_nat (length (runningServersOrder g) + i)) /\
  heap g' !! (length (heap g) + i)%nat =
    Some (new_endlessServer a
            (negb (bool_decide (Getenv os "ENDLESS_CONTINUE" = EmptyString))) g).
Proof.
  intros g'. subst g'.
  destruct (register_all_order os addrs g) as (Hord & Hlen & Hfork).
  split; [done|]. split; [done|]. split; [done|]. clear Hord Hlen Hfork.
  revert g i Hi Hlast. induction addrs as [|b addrs IH]; intros g i Hi Hlast; [done|].
  change (register_all os (b :: addrs) g)
    with (register_all os addrs (NewServer os b g).2).
  destruct i as [|i]; cbn in Hi, Hlast.
  - injection Hi as ->. rewrite drop_0 in Hlast.
    destruct (register_all_keeps os addrs (NewServer os a g).2 a Hfresh Hlast)
      as [-> ->].
    rewrite NewServer_offsets, Hfresh. rewrite !Nat.add_0_r.
    assert (Hz : bool_decide (len EmptyString > 0) = false) by done.
    rewrite Hz. cbn [NewServer snd runningServers].
    split; [by rewrite lookup_insert_eq|].
    split; [by rewrite lookup_insert_eq|].
    apply register_all_heap. cbn. by apply list_lookup_middle.
  - destruct (IH (NewServer os b g).2 i Hi Hlast) as (Hp & Hoff & Hheap).
    cbn [NewServer snd heap runningServersOrder] in Hp, Hoff, Hheap.
    rewrite length_app in Hp, Hoff, Hheap. cbn [length] in Hp, Hoff, Hheap.
    replace (length (heap g) + S i)%nat with (length (heap g) + 1 + i)%nat by lia.
    replace (length (runningServersOrder g) + S i)%nat
      with (length (runningServersOrder g) + 1 + i)%nat by lia.
    done.
Qed.

Lemma NewServer_registers_witness :
  let g' := register_all parent_os [":80"; ":443"; ":80"]%string init in
  runningServersOrder g' = [":80"; ":443"; ":80"]%string /\
  runningServers g' !! ":80"%string = Some 2%nat /\
  socketPtrOffsetMap g' !! ":80"%string = Some 2 /\
  heap g' !! 2%nat = Some (new_endlessServer ":80" false init).
Proof.
  intros g'.
  destruct (NewServer_registers parent_os init [":80"; ":443"; ":80"]%string
              2%nat ":80" eq_refl eq_refl) as (Hord & _ & _ & Hp & Hoff & Hheap).
  - cbn. apply not_elem_of_nil.
  - split; [exact Hord|]. split; [exact Hp|]. split; [exact Hoff|]. exact Hheap.
Defined.

(* ===================================================================== *)
(** * Further properties of fork                                           *)
(* ===================================================================== *)

Lemma fork_loop_step (os : OS) (g : process) (a : string) (p : ptr)
  (rest : list (string * ptr)) (files : list (option File)) (oa : list string) :
  fork_loop os g ((a, p) :: rest) files oa =
    match heap g !! p with
    | None => None
    | Some srvPtr =>
        match fork_file os srvPtr with
        | None => None
        | Some f =>
            if bool_decide (0 ≤ map_index (socketPtrOffsetMap g) (Addr srvPtr)
                              < Z.of_nat (length files))
            then fork_loop os g rest
                   (<[Z.to_nat (map_index (socketPtrOffsetMap g) (Addr srvPtr)) := f]>
                      files)
                   (<[Z.to_nat (map_index (socketPtrOffsetMap g) (Addr srvPtr))
                      := Addr srvPtr]> oa)
            else None
        end
    end.
Proof. done. Qed.

(** A visited server the loop cannot handle makes the whole loop fail,
    wherever in the visit it comes. *)
Lemma fork_loop_bad (os : OS) (g : process) (iter : list (string * ptr))
  (a : string) (p : ptr) (srv : endlessServer) (n : nat) :
  (a, p) ∈ iter -> heap g !! p = Some srv ->
  fork_file os srv = None \/
    ~ (0 ≤ map_index (socketPtrOffsetMap g) (Addr srv) < Z.of_nat n) ->
  forall files oa, length files = n -> fork_loop os g iter files oa = None.
Proof.
  intros Hin Hp Hbad. induction iter as [|[a0 p0] rest IH]; intros files oa Hlen.
  - by apply elem_of_nil in Hin.
  - rewrite fork_loop_step. apply elem_of_cons in Hin as [[= <- <-]|Hin].
    + rewrite Hp. destruct Hbad as [->|Hslot]; [done|].
      destruct (fork_file os srv); [|done].
      rewrite bool_decide_eq_false_2; [done|]. by rewrite Hlen.
    + destruct (heap g !! p0) as [s0|]; [|done].
      destruct (fork_file os s0); [|done].
      case_bool_decide; [|done]. apply IH; [done|]. by rewrite length_insert.
Qed.

(** X12: [fork] panics when some registered server has no tracking
    listener to take a descriptor from (every server is in that state
    from [NewServer] until its listener is acquired, and for good if
    acquiring it failed) or has an offset beyond the number of
    registered servers.  The forked flag is set by then and no child has
    been started, so every later [fork] is refused. *)
Theorem fork_panics_on_unready_server
  (os : OS) (iter iter' : list (string * ptr)) (g : process)
  (a : string) (p : ptr) (srv : endlessServer)
  (Hfresh : runningServersForked g = false)
  (Hin : (a, p) ∈ iter)
  (Hp : heap g !! p = Some srv)
  (Hbad : fork_file os srv = None \/
          ~ (0 ≤ map_index (socketPtrOffsetMap g) (Addr srv)
               < Z.of_nat (size (runningServers g)))) :
  fork os iter g = (set_forked true g, [], Panic) /\
  fork os iter' (set_forked true g)
    = (set_forked true g, [], Ret (Some already_forked)) /\
  (forall addr child g0, fork_file os (new_endlessServer addr child g0) = None).
Proof.
  split; [|split; [done|done]].
  unfold fork. rewrite Hfresh.
  rewrite (fork_loop_bad os (set_forked true g) iter a p srv
             (size (runningServers g))); try done.
  apply length_replicate.
Qed.

Lemma fork_panics_on_unready_server_witness :
  let g := (NewServer parent_os ":8080" init).2 in
  fork parent_os (map_to_list (runningServers g)) g = (set_forked true g, [], Panic) /\
  fork parent_os [] (set_forked true g)
    = (set_forked true g, [], Ret (Some already_forked)).
Proof.
  intros g.
  destruct (fork_panics_on_unready_server parent_os (map_to_list (runningServers g)) []
              g ":8080" 0%nat (new_endlessServer ":8080" false init))
    as (Hpanic & Hrefused & _).
  - reflexivity.
  - apply elem_of_map_to_list. reflexivity.
  - reflexivity.
  - by left.
  - by split.
Defined.

Lemma Legacy_fork_loop_mapM (os : OS) (g : Legacy.process)
  (iter : list (string * ptr)) (files : list (option File)) :
  Legacy.fork_loop os g iter files =
    (fun more => files ++ more) <$> mapM (Legacy.server_file os g) iter.*2.
Proof.
  revert files. induction iter as [|[a p] iter IH]; intros files.
  - cbn. by rewrite app_nil_r.
  - assert (Hstep : Legacy.fork_loop os g ((a, p) :: iter) files =
                    match Legacy.server_file os g p with
                    | None => None
                    | Some f => Legacy.fork_loop os g iter (files ++ [f])
                    end).
    { cbn [Legacy.fork_loop]. unfold Legacy.server_file.
      destruct (Legacy.heap g !! p) as [srv|]; [|done].
      destruct (Legacy.EndlessListener srv); try done;
        by destruct (Legacy.tlsInnerListener srv). }
    rewrite Hstep. cbn [fmap list_fmap snd mapM].
    destruct (Legacy.server_file os g p) as [f|]; [|done].
    rewrite IH. cbn.
    destruct (mapM (Legacy.server_file os g) iter.*2) as [more|]; [|done].
    cbn. by rewrite <-app_assoc.
Qed.

(** X13: in the earlier revision [fork] hands the child the descriptors
    in the order in which it happens to visit the registry: descriptor
    [3 + k] of the child is the listener of the [k]-th visited server,
    whatever the order of registration, and the child is started with
    the single argument [-continue].  If a visited server has no
    listener the call panics, the flag being set already. *)
Theorem Legacy_fork_files_in_visit_order
  (os : OS) (iter : list (string * ptr)) (g : Legacy.process)
  (Hfresh : Legacy.runningServersForked g = false) :
  (forall files, mapM (Legacy.server_file os g) iter.*2 = Some files ->
     spawned (Legacy.fork os iter g).1.2 =
       [{| cmd_Path := Args0 os; cmd_Args := ["-continue"%string];
           cmd_ExtraFiles := files; cmd_Env := [] |}] /\
     (Legacy.fork os iter g).1.1 = Legacy.set_forked true g) /\
  (mapM (Legacy.server_file os g) iter.*2 = None ->
   Legacy.fork os iter g = (Legacy.set_forked true g, [], Panic)).
Proof.
  unfold Legacy.fork. rewrite Hfresh, Legacy_fork_loop_mapM.
  change (mapM (Legacy.server_file os (Legacy.set_forked true g)) iter.*2)
    with (mapM (Legacy.server_file os g) iter.*2).
  split.
  - intros files ->. cbn [fmap option_fmap option_map app].
    by destruct (os_start os _).
  - by intros ->.
Qed.

Lemma Legacy_fork_files_in_visit_order_witness :
  let srv := fun a l => {| Legacy.Addr := a;
                           Legacy.EndlessListener := ListenerEndless (newEndlessListener l);
                           Legacy.tlsInnerListener := None;
                           Legacy.wg := 0; Legacy.isChild := false |} in
  let g := {| Legacy.runningServers := {[ ":80"%string := 0%nat; ":81"%string := 1%nat ]};
              Legacy.runningServersOrder := {[ 0 := ":80"%string; 1 := ":81"%string ]};
              Legacy.runningServersForked := false;
              Legacy.heap := [srv ":80"%string 103; srv ":81"%string 104] |} in
  spawned (Legacy.fork parent_os [(":81"%string, 1%nat); (":80"%string, 0%nat)] g).1.2 =
    [{| cmd_Path := "/srv/app"; cmd_Args := ["-continue"%string];
        cmd_ExtraFiles := [Some 1104; Some 1103]; cmd_Env := [] |}].
Proof.
  intros srv g.
  apply (proj1 (Legacy_fork_files_in_visit_order parent_os
                  [(":81"%string, 1%nat); (":80"%string, 0%nat)] g eq_refl)
           [Some 1104; Some 1103]).
  reflexivity.
Defined.

(* ===================================================================== *)
(** * Further properties of the child's descriptor slots                   *)
(* ===================================================================== *)

Lemma assign_offsets_NoDup_inv (addrs : list string) (a : string) (off : Z) :
  NoDup addrs -> assign_offsets 0 addrs ∅ !! a = Some off ->
  exists i : nat, addrs !! i = Some a /\ off = Z.of_nat i.
Proof.
  intros Hnd Hoff. destruct (decide (a ∈ addrs)) as [Hin|Hout].
  - apply list_elem_of_lookup in Hin as [i Hi]. exists i. split; [done|].
    rewrite (assign_offsets_NoDup _ i) in Hoff by done. by injection Hoff as <-.
  - rewrite assign_offsets_notin in Hoff by done. by rewrite lookup_empty in Hoff.
Qed.

(** X14: a fresh child that was given a socket order with distinct
    entries has, after any registrations, each listed address at the
    offset of its position, every other address at offset 0, and all
    offsets below the number of entries; two different listed addresses
    never share an offset, so a child server never asks for the
    descriptor of another listed address. *)
Theorem child_slots_distinct
  (os : OS) (more : list string) (srv : endlessServer)
  (Hlen : len (Getenv os "ENDLESS_SOCKET_ORDER") > 0)
  (Hnd : NoDup (Split (Getenv os "ENDLESS_SOCKET_ORDER") comma))
  (Hmore : more <> []) :
  let order := Split (Getenv os "ENDLESS_SOCKET_ORDER") comma in
  let g := register_all os more init in
  (forall (i : nat) a, order !! i = Some a -> ptrOffset g a = Z.of_nat i) /\
  (forall a, a ∉ order -> ptrOffset g a = 0) /\
  (forall a, 0 <= ptrOffset g a < Z.of_nat (length order)) /\
  (forall a b, a ∈ order -> b ∈ order -> a <> b ->
     ptrOffset g a <> ptrOffset g b /\
     (isChild srv = true -> 3 + Z.of_nat (length order) <= uint_modulus ->
      getListener_request srv g a <> getListener_request srv g b)).
Proof.
  intros order g.
  assert (Hmap : socketPtrOffsetMap g = assign_offsets 0 order ∅)
    by (by apply child_offsets).
  assert (Hlisted : forall (i : nat) a, order !! i = Some a -> ptrOffset g a = Z.of_nat i).
  { intros i a Hi. apply ptrOffset_lookup. rewrite Hmap.
    by apply assign_offsets_NoDup. }
  assert (Hunlisted : forall a, a ∉ order -> ptrOffset g a = 0).
  { intros a Ha. apply ptrOffset_missing. rewrite Hmap.
    by rewrite assign_offsets_notin. }
  assert (Hpos : (0 < length order)%nat).
  { pose proof (Split_nonempty comma (Getenv os "ENDLESS_SOCKET_ORDER")) as Hne.
    fold order in Hne. destruct order; [done|]. cbn. lia. }
  assert (Hbound : forall a, 0 <= ptrOffset g a < Z.of_nat (length order)).
  { intros a. destruct (decide (a ∈ order)) as [Ha|Ha].
    - apply list_elem_of_lookup in Ha as [i Hi]. rewrite (Hlisted i a Hi).
      apply lookup_lt_Some in Hi. lia.
    - rewrite (Hunlisted a Ha). lia. }
  split; [done|]. split; [done|]. split; [done|].
  intros a b Ha Hb Hab.
  apply list_elem_of_lookup in Ha as [i Hi]. apply list_elem_of_lookup in Hb as [j Hj].
  assert (Hij : Z.of_nat i <> Z.of_nat j).
  { intros Heq. apply Nat2Z.inj in Heq. subst j. congruence. }
  rewrite (Hlisted i a Hi), (Hlisted j b Hj). split; [done|].
  intros Hchild Hfits. unfold getListener_request.
  rewrite Hchild, (Hlisted i a Hi), (Hlisted j b Hj).
  apply lookup_lt_Some in Hi, Hj. unfold uint_wrap.
  rewrite !Z.mod_small by lia. intros [= Heq]. lia.
Qed.

Lemma child_slots_distinct_witness :
  let os := child_os "a:80,b:81" 4242 in
  let g := register_all os ["b:81"; "z:99"]%string init in
  let srv := new_endlessServer "b:81" true init in
  ptrOffset g "a:80" = 0 /\ ptrOffset g "b:81" = 1 /\ ptrOffset g "z:99" = 0 /\
  getListener_request srv g "a:80" <> getListener_request srv g "b:81".
Proof.
  intros os g srv.
  assert (Hnd : NoDup (Split (Getenv os "ENDLESS_SOCKET_ORDER") comma))
    by (apply (bool_decide_unpack _); by vm_compute).
  assert (Hlen : len (Getenv os "ENDLESS_SOCKET_ORDER") > 0) by (by vm_compute).
  assert (Hmore : ["b:81"; "z:99"]%string <> []) by done.
  destruct (child_slots_distinct os ["b:81"; "z:99"]%string srv Hlen Hnd Hmore)
    as (Hlisted & Hunlisted & _ & Hdistinct).
  split; [by apply (Hlisted 0%nat)|]. split; [by apply (Hlisted 1%nat)|].
  split.
  - apply Hunlisted. vm_compute. intros Hin.
    repeat (apply elem_of_cons in Hin as [Hin|Hin]; [discriminate Hin|]).
    by apply elem_of_nil in Hin.
  - apply (Hdistinct "a:80"%string "b:81"%string); try done.
    + vm_compute. apply list_elem_of_here.
    + vm_compute. apply list_elem_of_further, list_elem_of_here.
Defined.

(* ===================================================================== *)
(** * The descriptors fork hands to the child                              *)
(* ===================================================================== *)

Section MixedParent.
Variable os : OS.
Hypothesis Hfresh : Getenv os "ENDLESS_SOCKET_ORDER" = EmptyString.
Hypothesis Hparent : Getenv os "ENDLESS_CONTINUE" = EmptyString.
Hypothesis Hlisten : forall a, exists l, os_open os (Listen a) = inl l.

(** What starting one server, over HTTP or TLS, leaves behind. *)
Lemma start_step_parent (tls : bool) (a : string) (g : process) :
  exists l srv',
    listening_on os tls l srv' /\ Addr srv' = a /\
    (if tls then (pkg_ListenAndServeTLS os None a g).1.1
     else (pkg_ListenAndServe os a g).1.1) =
      {| runningServers := <[a := length (heap g)]> (runningServers g);
         runningServersOrder := runningServersOrder g ++ [a];
         socketPtrOffsetMap :=
           <[a := Z.of_nat (length (runningServersOrder g))]> (socketPtrOffsetMap g);
         runningServersForked := runningServersForked g;
         DefaultReadTimeOut := DefaultReadTimeOut g;
         DefaultWriteTimeOut := DefaultWriteTimeOut g;
         DefaultMaxHeaderBytes := DefaultMaxHeaderBytes g;
         DefaultHammerTime := DefaultHammerTime g;
         g_isChild := false;
         socketOrder := EmptyString;
         heap := heap g ++ [srv'] |}.
Proof.
  assert (Hz : bool_decide (len EmptyString > 0) = false) by done.
  destruct tls.
  - unfold pkg_ListenAndServeTLS, NewServer. rewrite Hfresh, Hparent, Hz.
    rewrite bool_decide_eq_true_2 by done. cbn [negb heap].
    rewrite list_lookup_middle by done.
    unfold ListenAndServeTLS, getListener, getListener_request.
    cbn [isChild new_endlessServer Addr].
    match goal with |- context [os_open os (Listen ?x)] =>
      destruct (Hlisten x) as [l Hl]; rewrite Hl end.
    exists l. eexists. split; [|split; [|cbn [fst snd]; unfold set_heap; cbn;
      f_equal; rewrite insert_app_r_alt by done; by rewrite Nat.sub_diag]].
    + split; [exact Hl|]. by split.
    + done.
  - unfold pkg_ListenAndServe, NewServer. rewrite Hfresh, Hparent, Hz.
    rewrite bool_decide_eq_true_2 by done. cbn [negb heap].
    rewrite list_lookup_middle by done.
    unfold ListenAndServe, getListener, getListener_request.
    cbn [isChild new_endlessServer Addr].
    match goal with |- context [os_open os (Listen ?x)] =>
      destruct (Hlisten x) as [l Hl]; rewrite Hl end.
    exists l. eexists. split; [|split; [|cbn [fst snd]; unfold set_heap; cbn;
      f_equal; rewrite insert_app_r_alt by done; by rewrite Nat.sub_diag]].
    + split; [exact Hl|]. done.
    + done.
Qed.

Lemma ready_registry_step (spec : string * bool) (specs : list (string * bool))
  (g : process) :
  ready_registry os specs g -> spec.1 ∉ specs.*1 ->
  ready_registry os (specs ++ [spec])
    (if spec.2 then (pkg_ListenAndServeTLS os None spec.1 g).1.1
     else (pkg_ListenAndServe os spec.1 g).1.1).
Proof.
  destruct spec as [a tls]. cbn [fst snd].
  intros (Hoff & Hord & Hfork & Hdom & Hsize & Hheap) Hnew.
  destruct (start_step_parent tls a g) as (l & srv' & Hon & Haddr & ->).
  assert (Hnone : runningServers g !! a = None).
  { apply eq_None_not_Some. by rewrite <-Hdom. }
  unfold ready_registry. cbn [socketPtrOffsetMap runningServersOrder
    runningServersForked runningServers heap]. rewrite fmap_app. cbn [fmap list_fmap fst].
  split; [|split; [|split; [done|split; [|split]]]].
  - rewrite assign_offsets_app, <-Hoff, Hord. cbn. by rewrite Z.add_0_l.
  - by rewrite Hord.
  - intros a'. rewrite elem_of_app, list_elem_of_singleton, Hdom.
    rewrite lookup_insert_is_Some'.
    split; (intros [H|H]; [right|left]); done.
  - rewrite map_size_insert_None by done. rewrite length_app, Hsize. cbn. lia.
  - intros a' p. destruct (decide (a' = a)) as [->|Hne].
    + rewrite lookup_insert_eq. intros [= <-].
      exists srv', tls, l. split; [apply elem_of_app; right; apply list_elem_of_here|].
      split; [by apply list_lookup_middle|]. done.
    + rewrite lookup_insert_ne by done. intros Hp.
      destruct (Hheap _ _ Hp) as (srv & tls' & l' & Hin & Hsrv & Ha & Hon').
      exists srv, tls', l'. split; [apply elem_of_app; by left|].
      split; [by apply lookup_app_l_Some|done].
Qed.

Lemma start_mixed_ready (specs : list (string * bool)) :
  NoDup specs.*1 -> ready_registry os specs (start_mixed os specs init).
Proof.
  induction specs as [|spec specs IH] using rev_ind; intros Hnd.
  - unfold ready_registry; cbn. repeat split; try done.
    + intros Hin. by apply elem_of_nil in Hin.
    + intros [p Hp]. by rewrite lookup_empty in Hp.
  - rewrite fmap_app in Hnd. apply NoDup_app in Hnd as (Hnd & Hdisj & _).
    unfold start_mixed. rewrite foldl_snoc.
    apply ready_registry_step; [by apply IH|].
    intros Hin. apply (Hdisj _ Hin). cbn. apply list_elem_of_here.
Qed.
End MixedParent.

(** The loop of [fork] over a registry whose servers all yield a
    descriptor: each visited server's descriptor and address end up in
    the slot of its offset; the slots of servers not visited are left
    alone. *)
Lemma fork_loop_slots (os : OS) (addrs : list string) (g : process) :
  NoDup addrs ->
  socketPtrOffsetMap g = assign_offsets 0 addrs ∅ ->
  (forall a, is_Some (runningServers g !! a) -> a ∈ addrs) ->
  (forall a p, runningServers g !! a = Some p ->
     exists srv f, heap g !! p = Some srv /\ Addr srv = a /\
                   fork_file os srv = Some f) ->
  forall (iter : list (string * ptr)) (files : list (option File)) (oa : list string),
    length files = length addrs -> length oa = length addrs ->
    (forall a p, (a, p) ∈ iter -> runningServers g !! a = Some p) ->
    exists files' oa',
      fork_loop os g iter files oa = Some (files', oa') /\
      length files' = length addrs /\ length oa' = length addrs /\
      (forall i a p srv f,
         addrs !! i = Some a -> (a, p) ∈ iter -> heap g !! p = Some srv ->
         fork_file os srv = Some f ->
         files' !! i = Some f /\ oa' !! i = Some a) /\
      (forall i a, addrs !! i = Some a -> a ∉ iter.*1 ->
         files' !! i = files !! i /\ oa' !! i = oa !! i).
Proof.
  intros Hnd Hoff Hdom Hheap iter.
  induction iter as [|[a0 p0] rest IH]; intros files oa Hfiles Hoa Hreg.
  - exists files, oa. split; [done|]. split; [done|]. split; [done|]. split.
    + intros i a p srv f _ Hin. by apply elem_of_nil in Hin.
    + done.
  - assert (Hp0 : runningServers g !! a0 = Some p0)
      by (apply Hreg, list_elem_of_here).
    destruct (Hheap _ _ Hp0) as (srv0 & f0 & Hsrv0 & Haddr0 & Hfile0).
    assert (Hin0 : a0 ∈ addrs) by (apply Hdom; by eexists).
    apply list_elem_of_lookup in Hin0 as [i0 Hi0].
    assert (Hslot : map_index (socketPtrOffsetMap g) (Addr srv0) = Z.of_nat i0).
    { unfold map_index. by rewrite Hoff, Haddr0, (assign_offsets_NoDup _ i0). }
    pose proof (lookup_lt_Some _ _ _ Hi0) as Hlt.
    destruct (IH (<[i0 := f0]> files) (<[i0 := a0]> oa))
      as (files' & oa' & Hloop & Hfiles' & Hoa' & Hvisited & Hskipped).
    { by rewrite length_insert. }
    { by rewrite length_insert. }
    { intros a p Hin. apply Hreg. by apply list_elem_of_further. }
    exists files', oa'. rewrite fork_loop_step, Hsrv0, Hfile0, Hslot, Haddr0.
    rewrite bool_decide_eq_true_2 by lia. rewrite Nat2Z.id.
    split; [done|]. split; [done|]. split; [done|]. split.
    + intros i a p srv f Hi Hin Hsrv Hfile.
      apply elem_of_cons in Hin as [[= -> ->]|Hin]; [|by eapply Hvisited].
      destruct (decide (a0 ∈ rest.*1)) as [Hagain|Honce].
      * apply list_elem_of_fmap in Hagain as ([a' p'] & Ha' & Hin'). cbn in Ha'. subst a'.
        assert (p' = p0) as ->.
        { assert (runningServers g !! a0 = Some p')
            by (apply Hreg; by apply list_elem_of_further).
          congruence. }
        by eapply Hvisited.
      * destruct (Hskipped i a0 Hi Honce) as [-> ->].
        rewrite (NoDup_lookup _ _ _ _ Hnd Hi Hi0).
        assert (srv = srv0) as -> by congruence.
        assert (f = f0) as -> by congruence.
        split; apply list_lookup_insert_eq; lia.
    + intros i a Hi Hnot. cbn [fmap list_fmap fst] in Hnot.
      apply not_elem_of_cons in Hnot as [Hne Hnot].
      destruct (Hskipped i a Hi Hnot) as [-> ->].
      assert (i0 <> i) by (intros ->; congruence).
      split; by apply list_lookup_insert_ne.
Qed.

Lemma listening_on_fork_file (os : OS) (tls : bool) (l : File) (srv : endlessServer) :
  listening_on os tls l srv -> fork_file os srv = Some (os_dup os l).
Proof.
  unfold listening_on, fork_file. destruct tls.
  - by intros (_ & -> & ->).
  - by intros (_ & ->).
Qed.

(** X15: a first-generation parent has started servers on distinct
    addresses, each over HTTP or over TLS, and all have their listener
    (there may be none, or one).  Then [fork], in whatever order it
    visits the registry, starts one child with the parent's own program
    path and arguments, and the child's extra descriptor [i] is the
    duplicate of the listening socket of the [i]-th started server, for
    a TLS server the socket beneath the TLS listener.  The child's
    environment is the parent's followed by [ENDLESS_CONTINUE=1] and,
    only when more than one server is registered, by the socket order. *)
Theorem fork_descriptor_slots
  (os : OS) (specs : list (string * bool)) (iter : list (string * ptr))
  (Hfresh : Getenv os "ENDLESS_SOCKET_ORDER" = EmptyString)
  (Hparent : Getenv os "ENDLESS_CONTINUE" = EmptyString)
  (Hlisten : forall a, exists l, os_open os (Listen a) = inl l)
  (Hnd : NoDup specs.*1)
  (Hiter : iter ≡ₚ map_to_list (runningServers (start_mixed os specs init))) :
  let parent := start_mixed os specs init in
  exists cmd,
    spawned (fork os iter parent).1.2 = [cmd] /\
    (fork os iter parent).1.1 = set_forked true parent /\
    cmd_Path cmd = Args0 os /\ cmd_Args cmd = Args1 os /\
    length (cmd_ExtraFiles cmd) = length specs /\
    (forall i a (tls : bool), specs !! i = Some (a, tls) ->
       exists l,
         os_open os (Listen (if bool_decide (a = EmptyString)
                             then (if tls then ":https" else ":http")%string
                             else a)) = inl l /\
         cmd_ExtraFiles cmd !! i = Some (os_dup os l)) /\
    cmd_Env cmd =
      Environ os ++ ["ENDLESS_CONTINUE=1"%string]
        ++ (if bool_decide (1 < length specs)%nat
            then ["ENDLESS_SOCKET_ORDER=" +:+ Join specs.*1 comma] else []).
Proof.
  intros parent.
  destruct (start_mixed_ready os Hfresh Hparent Hlisten specs Hnd)
    as (Hoff & Hord & Hfork & Hdom & Hsize & Hheap).
  fold parent in Hoff, Hord, Hfork, Hdom, Hsize, Hheap, Hiter.
  assert (Hlen : length specs.*1 = length specs) by apply length_fmap.
  assert (Hentries : forall a p, runningServers parent !! a = Some p ->
            exists srv f, heap parent !! p = Some srv /\ Addr srv = a /\
                          fork_file os srv = Some f).
  { intros a p Hp. destruct (Hheap a p Hp) as (srv & tls & l & _ & Hsrv & Ha & Hon).
    exists srv, (os_dup os l). split; [done|]. split; [done|].
    by eapply listening_on_fork_file. }
  unfold fork. rewrite Hfork, Hsize.
  destruct (fork_loop_slots os specs.*1 (set_forked true parent) Hnd Hoff
              (fun a Ha => proj2 (Hdom a) Ha) Hentries iter
              (replicate (length specs) None)
              (replicate (length specs) EmptyString))
    as (files & oa & -> & Hfiles & Hoa & Hvisited & _).
  { by rewrite length_replicate. }
  { by rewrite length_replicate. }
  { intros a p Hin. apply elem_of_map_to_list. by rewrite <-Hiter. }
  assert (Hslot : forall i a, specs.*1 !! i = Some a ->
            exists p srv tls l,
              (a, tls) ∈ specs /\ (a, p) ∈ iter /\ heap parent !! p = Some srv /\
              Addr srv = a /\ listening_on os tls l srv).
  { intros i a Hi.
    destruct (proj1 (Hdom a)) as [p Hp]; [by eapply list_elem_of_lookup_2|].
    destruct (Hheap a p Hp) as (srv & tls & l & Hin & Hsrv & Ha & Hon).
    exists p, srv, tls, l. split; [done|]. split; [|done].
    rewrite Hiter. by apply elem_of_map_to_list. }
  assert (oa = specs.*1) as ->.
  { apply list_eq. intros i. destruct (specs.*1 !! i) as [a|] eqn:Hi.
    - destruct (Hslot i a Hi) as (p & srv & tls & l & _ & Hin & Hsrv & _ & Hon).
      by destruct (Hvisited i a p srv _ Hi Hin Hsrv (listening_on_fork_file _ _ _ _ Hon)).
    - apply lookup_ge_None in Hi. apply lookup_ge_None. lia. }
  assert (Henv : (if bool_decide (Z.of_nat (length specs) > 1)
                  then ["ENDLESS_SOCKET_ORDER=" +:+ Join specs.*1 comma] else [])
                 = (if bool_decide (1 < length specs)%nat
                    then ["ENDLESS_SOCKET_ORDER=" +:+ Join specs.*1 comma] else [])).
  { by repeat case_bool_decide; try lia. }
  assert (Hfilesi : forall i a (tls : bool), specs !! i = Some (a, tls) ->
            exists l,
              os_open os (Listen (if bool_decide (a = EmptyString)
                                  then (if tls then ":https" else ":http")%string
                                  else a)) = inl l /\
              files !! i = Some (os_dup os l)).
  { intros i a tls Hi.
    assert (Hi' : specs.*1 !! i = Some a) by (by rewrite list_lookup_fmap, Hi).
    destruct (Hslot i a Hi') as (p & srv & tls' & l & Hin' & Hin & Hsrv & Ha & Hon).
    assert (tls' = tls) as ->.
    { apply list_elem_of_lookup in Hin' as [j Hj].
      assert (Hj' : specs.*1 !! j = Some a) by (by rewrite list_lookup_fmap, Hj).
      pose proof (NoDup_lookup _ _ _ _ Hnd Hi' Hj'). subst j. congruence. }
    exists l. split.
    - destruct Hon as [Hopen _]. unfold listen_address in Hopen.
      rewrite Ha in Hopen. by destruct tls.
    - by destruct (Hvisited i a p srv _ Hi' Hin Hsrv (listening_on_fork_file _ _ _ _ Hon)). }
  rewrite Henv.
  destruct (os_start os _); eexists; cbn [fst snd cmd_Path cmd_Args cmd_ExtraFiles cmd_Env];
    (split; [reflexivity|]); (split; [done|]); (split; [done|]); (split; [done|]);
    (split; [cbn [cmd_ExtraFiles]; by rewrite Hfiles, Hlen|]);
    (split; [exact Hfilesi|done]).
Qed.

Lemma fork_descriptor_slots_witness :
  let specs := [(":80"%string, false); (EmptyString, true)] in
  let parent := start_mixed parent_os specs init in
  let iter := reverse (map_to_list (runningServers parent)) in
  exists cmd,
    spawned (fork parent_os iter parent).1.2 = [cmd] /\
    cmd_ExtraFiles cmd = [Some 1103; Some 1106] /\
    last (cmd_Env cmd) = Some "ENDLESS_SOCKET_ORDER=:80,"%string.
Proof.
  intros specs parent iter.
  assert (Hlisten : forall a, exists l, os_open parent_os (Listen a) = inl l)
    by (intros a; by eexists).
  assert (Hnd : NoDup specs.*1) by (apply (bool_decide_unpack _); by vm_compute).
  assert (Hiter : iter ≡ₚ map_to_list (runningServers (start_mixed parent_os specs init)))
    by apply reverse_Permutation.
  destruct (fork_descriptor_slots parent_os specs iter eq_refl eq_refl
              Hlisten Hnd Hiter)
    as (cmd & Hcmd & _ & _ & _ & Hlen & Hfiles & Henv).
  exists cmd. split; [exact Hcmd|]. split.
  - destruct (Hfiles 0%nat ":80"%string false eq_refl) as (l0 & Hl0 & Hf0).
    destruct (Hfiles 1%nat EmptyString true eq_refl) as (l1 & Hl1 & Hf1).
    injection Hl0 as <-. injection Hl1 as <-.
    destruct (cmd_ExtraFiles cmd) as [|f0 [|f1 [|]]]; try discriminate Hlen.
    cbn in Hf0, Hf1. by injection Hf0 as ->; injection Hf1 as ->.
  - rewrite Henv. reflexivity.
Defined.

(** X16: a child server registered with a blank address is looked up
    under [":http"], not under the blank address it was registered and
    listed with.  So when the socket order lists the blank address at
    position [i] and does not list [":http"], [ListenAndServe] adopts
    the socket of descriptor 3, whatever [i] is, although the offset map
    holds [i] for the blank address. *)
Theorem blank_address_opens_fd3
  (os : OS) (g0 : process) (i : nat) (l : File)
  (Hchild : Getenv os "ENDLESS_CONTINUE" <> EmptyString)
  (Hlen : len (Getenv os "ENDLESS_SOCKET_ORDER") > 0)
  (Hi : Split (Getenv os "ENDLESS_SOCKET_ORDER") comma !! i = Some EmptyString)
  (Hlast : EmptyString ∉ drop (S i) (Split (Getenv os "ENDLESS_SOCKET_ORDER") comma))
  (Hhttp : ":http"%string ∉ Split (Getenv os "ENDLESS_SOCKET_ORDER") comma)
  (Hg0 : socketPtrOffsetMap g0 !! ":http"%string = None)
  (Hopen : os_open os (FromFile 3) = inl l) :
  let p := (NewServer os EmptyString g0).1 in
  let g := (NewServer os EmptyString g0).2 in
  exists srv,
    heap g !! p = Some srv /\
    socketPtrOffsetMap g !! EmptyString = Some (Z.of_nat i) /\
    getListener_request srv g (listen_address ":http" srv) = FromFile 3 /\
    EndlessListener (ListenAndServe os g srv).1.1
      = ListenerEndless (newEndlessListener l).
Proof.
  intros p g.
  assert (Hflag : negb (bool_decide (Getenv os "ENDLESS_CONTINUE" = EmptyString)) = true)
    by (by rewrite bool_decide_eq_false_2).
  exists (new_endlessServer EmptyString true g0).
  assert (Hoff : socketPtrOffsetMap g !! EmptyString = Some (Z.of_nat i)).
  { subst g. rewrite NewServer_offsets. rewrite bool_decide_eq_true_2 by done.
    by rewrite (assign_offsets_last _ _ _ EmptyString i). }
  assert (Hmiss : socketPtrOffsetMap g !! ":http"%string = None).
  { subst g. rewrite NewServer_offsets. rewrite bool_decide_eq_true_2 by done.
    by rewrite assign_offsets_notin. }
  assert (Hreq : getListener_request (new_endlessServer EmptyString true g0) g ":http"
                 = FromFile 3).
  { unfold getListener_request. cbn [isChild new_endlessServer].
    by rewrite (ptrOffset_missing _ _ Hmiss). }
  split; [|split; [done|split; [done|]]].
  - subst p g. unfold NewServer. cbn [fst snd heap]. rewrite Hflag.
    by apply list_lookup_middle.
  - unfold ListenAndServe. cbn [Addr new_endlessServer].
    rewrite bool_decide_eq_true_2 by done.
    rewrite getListener_result, Hreq, Hopen. done.
Qed.

Lemma blank_address_opens_fd3_witness :
  let os := child_os ":80," 4242 in
  let g := (NewServer os EmptyString init).2 in
  exists srv,
    heap g !! 0%nat = Some srv /\
    socketPtrOffsetMap g !! EmptyString = Some 1 /\
    EndlessListener (ListenAndServe os g srv).1.1
      = ListenerEndless (newEndlessListener 3).
Proof.
  intros os g.
  destruct (blank_address_opens_fd3 os init 1%nat 3) as (srv & Hp & Hoff & _ & Hl);
    try done.
  - vm_compute. apply not_elem_of_nil.
  - vm_compute. intros Hin.
    repeat (apply elem_of_cons in Hin as [Hin|Hin]; [discriminate Hin|]).
    by apply elem_of_nil in Hin.
  - by exists srv.
Defined.
